(** * Verification of [Search] (dataframe-go, search.go)

    [Search] looks for the rows of a Series whose value lies between two
    bounds.  It resolves an optional row range, splits it into one sub-range
    per core, scans the sub-ranges in concurrent goroutines that poll the
    caller's context before every row, and concatenates the rows found by
    each goroutine in goroutine order.

    The development is a shallow embedding: Go's [int] is [Z] with the
    two's-complement wrap-around written out, the goroutines are a list of
    scanner states advanced by an interleaving scheduler, [mapRows] is a
    [gmap], and the context is the optional error that [ctx.Err()] reports. *)

From stdpp Require Import base numbers list gmap sorting.

Local Open Scope Z_scope.

(** ** Go's [int] (64-bit platforms) *)

Definition max_int : Z := 2 ^ 63 - 1.
Definition min_int : Z := - 2 ^ 63.

Definition int_wrap (z : Z) : Z := (z + 2 ^ 63) `mod` 2 ^ 64 - 2 ^ 63.

Definition int_add (a b : Z) : Z := int_wrap (a + b).
Definition int_sub (a b : Z) : Z := int_wrap (a - b).
Definition int_mul (a b : Z) : Z := int_wrap (a * b).
(** Go's [/] truncates toward zero.  A zero divisor panics in Go; the divisor
    of [Search] is [runtime.NumCPU()], which is at least 1. *)
Definition int_div (a b : Z) : Z := int_wrap (a `quot` b).

(** ** The collaborators of [Search] *)

(** [Range]: both ends are pointers in Go, [nil] when the end is left open. *)
Record Range := { Start : option Z; End : option Z }.

(** Dereference of a [Range] pointer.  [Search] only dereferences the
    pointers of the sub-ranges it has built itself, which are never [nil]. *)
Definition deref (p : option Z) : Z := default 0 p.

(** The part of the [Series] interface that [Search] calls, for a column whose
    values have type [V].  [Lock]/[Unlock] are held around the whole call and
    every access passes [DontLock], so the column is the same at every read. *)
Record Series (V : Type) := {
  NRows : Z;
  Value : Z → V;
  IsEqualFunc : V → V → bool;
  IsLessThanFunc : V → V → bool
}.
Arguments NRows {V} _.
Arguments Value {V} _ _.
Arguments IsEqualFunc {V} _ _ _.
Arguments IsLessThanFunc {V} _ _ _.

Section Search.
Context {V error : Type}.

(** [cmp.Equal(lower, upper, cmpopts.IgnoreUnexported())] of go-cmp. *)
Variable cmpEqual : V → V → bool.
(** [Range.Limits], declared with [Range] outside search.go: the resolved
    inclusive ends of a range for a column of the given length, or an
    error. *)
Variable Limits : Range → Z → error + (Z * Z).
(** [runtime.NumCPU()]. *)
Variable nCores : Z.

(** Lines 39-60: one [Range] per core. *)
Definition subRanges (start end_ : Z) : list Range :=
  let div := int_div (int_add (int_sub end_ start) 1) nCores in
  (λ i : Z,
     if bool_decide (i ≠ int_sub nCores 1)
     then {| Start := Some (int_mul i div);
             End := Some (int_sub (int_mul (int_add i 1) div) 1) |}
     else {| Start := Some (int_mul i div);
             End := Some end_ |}) <$> seqZ 0 nCores.

(** Lines 90-98: the test applied to the value of a row. *)
Definition valueMatches (s : Series V) (equalCheck : bool)
    (lower upper val : V) : bool :=
  if equalCheck then IsEqualFunc s val lower
  else negb (IsLessThanFunc s val lower)
       && (IsLessThanFunc s val upper || IsEqualFunc s val upper).

Definition rowMatches (s : Series V) (equalCheck : bool)
    (lower upper : V) (row : Z) : bool :=
  valueMatches s equalCheck lower upper (Value s row).

(** *** Goroutines *)

Inductive status := Running | Returned (err : option error).

(** The goroutine started for core [idx]: its sub-range, the loop variable
    [row], the local slice [rowsFound], and whether it has returned. *)
Record scanner := {
  idx : Z;
  rng : Range;
  row : Z;
  rowsFound : list Z;
  stat : status
}.

(** What the goroutines share.  [ctxErr] is what [ctx.Err()] reports,
    [groupErr] the error kept by the errgroup (the first one returned),
    [fetched] the log of the rows handed to [s.Value], in call order. *)
Record state := {
  ctxErr : option error;
  workers : list scanner;
  mapRows : gmap Z (list Z);
  groupErr : option error;
  fetched : list Z
}.

Definition hasReturned (w : scanner) : bool :=
  match stat w with Running => false | Returned _ => true end.

(** Lines 80-102: one turn of a running goroutine, which is either one
    iteration of the loop or the exit from it.  An iteration reads the
    shared context once, at its start, so taking it as one step loses no
    interleaving.  The second component lists the rows fetched. *)
Definition scanner_step (s : Series V) (equalCheck : bool) (lower upper : V)
    (ctx : option error) (w : scanner) : scanner * list Z :=
  if bool_decide (row w < int_add (deref (End (rng w))) 1) then
    match ctx with
    | Some err =>
        ({| idx := idx w; rng := rng w; row := row w;
            rowsFound := rowsFound w; stat := Returned (Some err) |}, [])
    | None =>
        let val := Value s (row w) in
        ({| idx := idx w; rng := rng w; row := int_add (row w) 1;
            rowsFound :=
              if valueMatches s equalCheck lower upper val
              then rowsFound w ++ [row w] else rowsFound w;
            stat := Running |}, [row w])
    end
  else
    ({| idx := idx w; rng := rng w; row := row w;
        rowsFound := rowsFound w; stat := Returned None |}, []).

(** What can happen next: the caller's context is cancelled (or its deadline
    passes), or the Go scheduler gives a turn to goroutine [i]. *)
Inductive event := Cancel (reason : error) | Sched (i : nat).

(** One event.  A context keeps its first error.  A goroutine that returns
    runs its deferred function ([mapRows[i] = rowsFound], lines 74-78) and
    hands its error to the errgroup, which keeps the first non-nil one. *)
Definition step (s : Series V) (equalCheck : bool) (lower upper : V)
    (ev : event) (σ : state) : state :=
  match ev with
  | Cancel reason =>
      match ctxErr σ with
      | Some _ => σ
      | None =>
          {| ctxErr := Some reason; workers := workers σ;
             mapRows := mapRows σ; groupErr := groupErr σ;
             fetched := fetched σ |}
      end
  | Sched i =>
      match workers σ !! i with
      | None => σ
      | Some w =>
          match stat w with
          | Returned _ => σ
          | Running =>
              let '(w', reads) :=
                scanner_step s equalCheck lower upper (ctxErr σ) w in
              {| ctxErr := ctxErr σ;
                 workers := <[i := w']> (workers σ);
                 mapRows :=
                   match stat w' with
                   | Running => mapRows σ
                   | Returned _ => <[idx w' := rowsFound w']> (mapRows σ)
                   end;
                 groupErr :=
                   match stat w', groupErr σ with
                   | Returned (Some e), None => Some e
                   | _, g => g
                   end;
                 fetched := fetched σ ++ reads |}
          end
      end
  end.

Definition run (s : Series V) (equalCheck : bool) (lower upper : V)
    (sch : list event) (σ : state) : state :=
  foldl (λ σ ev, step s equalCheck lower upper ev σ) σ sch.

(** [g.Wait()] returns once every goroutine has returned. *)
Definition finished (σ : state) : bool := forallb hasReturned (workers σ).

(** Lines 68-72: the goroutine of core [i] at its start. *)
Definition spawn (i : Z) (r : Range) : scanner :=
  {| idx := i; rng := r; row := deref (Start r); rowsFound := [];
     stat := Running |}.

Definition spawnAll (rs : list Range) : list scanner :=
  zip_with spawn (seqZ 0 nCores) rs.

(** Lines 22-24 and the [r[0]] of line 31. *)
Definition firstRange (r : list Range) : Range :=
  match r with
  | [] => {| Start := None; End := None |}
  | r0 :: _ => r0
  end.

(** Lines 62-72: the shared state when the goroutines start.  [ctx0] is the
    context's error at that moment, [nil] for a context still alive. *)
Definition started (ctx0 : option error) (start end_ : Z) : state :=
  {| ctxErr := ctx0; workers := spawnAll (subRanges start end_);
     mapRows := ∅; groupErr := None; fetched := [] |}.

(** Lines 19-66: everything before the goroutines run.  An error of
    [Limits] ends the call there. *)
Definition launch (ctx0 : option error) (s : Series V)
    (r : list Range) : error + state :=
  match Limits (firstRange r) (NRows s) with
  | inl err => inl err
  | inr (start, end_) => inr (started ctx0 start end_)
  end.

(** Lines 108-120: a missing key of a Go map reads as the nil slice. *)
Definition aggregate (m : gmap Z (list Z)) : list Z :=
  concat ((λ i : Z, default [] (m !! i)) <$> seqZ 0 nCores).

(** What a call hands back, with the log of the rows it fetched. *)
Record outcome := { rows : list Z; err : option error; reads : list Z }.

(** The state the call has reached after the events of [sch], or the error
    of [Limits]. *)
Definition running (sch : list event) (ctx0 : option error) (s : Series V)
    (lower upper : V) (r : list Range) : error + state :=
  match launch ctx0 s r with
  | inl e => inl e
  | inr σ0 => inr (run s (cmpEqual lower upper) lower upper sch σ0)
  end.

(** [Search] under the schedule [sch]; [None] when [sch] stops before every
    goroutine has returned, so that [g.Wait()] is still blocked. *)
Definition Search (sch : list event) (ctx0 : option error) (s : Series V)
    (lower upper : V) (r : list Range) : option outcome :=
  match running sch ctx0 s lower upper r with
  | inl e => Some {| rows := []; err := Some e; reads := [] |}
  | inr σ =>
      if finished σ
      then Some {| rows := aggregate (mapRows σ); err := groupErr σ;
                   reads := fetched σ |}
      else None
  end.

(** A schedule that lets every goroutine run to its end, one after the
    other: goroutine [i] needs at most one turn per row and one to return. *)
Definition turns (n : nat) (i : nat) : list event := replicate n (Sched i).

Definition sequentially (n : nat) : list event :=
  concat (turns n <$> seq 0 (Z.to_nat nCores)).

End Search.

Arguments Running {error}.
Arguments Cancel {error} _.
Arguments Sched {error} _.

(** ** Reference definitions and a concrete column *)

(** The rows of an inclusive range of row indices, in ascending order. *)
Definition rowsOf (r : Range) : list Z :=
  seqZ (deref (Start r)) (deref (End r) + 1 - deref (Start r)).

(** A strictly sequential single pass over the rows [start..end_], keeping
    the rows that pass the test of the scanners. *)
Definition sequentialScan {V} (s : Series V) (equalCheck : bool)
    (lower upper : V) (start end_ : Z) : list Z :=
  filter (λ row, rowMatches s equalCheck lower upper row)
         (seqZ start (end_ - start + 1)).

(** The two kinds of error a search reports: the one of [Range.Limits] and
    the one of a cancelled context. *)
Inductive searchError := InvalidRangeError | CancellationError.

(** Modelled from the spec: [Range.Limits] is declared outside search.go.
    Either end may be left out and then defaults to the column's full
    extent; the resolved ends satisfy [0 ≤ start ≤ end < rowCount], and any
    other request fails with [InvalidRangeError]. *)
Definition resolveLimits (r : Range) (rowCount : Z) : searchError + (Z * Z) :=
  let start := default 0 (Start r) in
  let end_ := default (rowCount - 1) (End r) in
  if bool_decide (0 ≤ start ∧ start ≤ end_ ∧ end_ < rowCount)
  then inr (start, end_)
  else inl InvalidRangeError.

(** A column of integers held in a list, compared with [=] and [<].  A row
    outside the list reads as 0; [Search] fetches no such row (lemma
    [running_fetched_rows]). *)
Definition intSeries (vals : list Z) : Series Z :=
  {| NRows := Z.of_nat (length vals);
     Value := λ row, default 0 (vals !! Z.to_nat row);
     IsEqualFunc := Z.eqb;
     IsLessThanFunc := Z.ltb |}.

(** [Search] on a column of integers, with [nCores] cores. *)
Definition searchInts (nCores : Z) (sch : list event)
    (ctx0 : option searchError)
    (vals : list Z) (lower upper : Z) (r : list Range)
    : option (outcome (error := searchError)) :=
  Search Z.eqb resolveLimits nCores sch ctx0 (intSeries vals) lower upper r.

Definition wholeRange : Range := {| Start := None; End := None |}.
Definition rowRange (a b : Z) : Range := {| Start := Some a; End := Some b |}.

(** ** Invariants of a running search *)

(** A sub-range that a goroutine can walk without leaving Go's [int]: it
    starts at a row index and ends no lower than the row before its start. *)
Definition wfRange (r : Range) : Prop :=
  0 ≤ deref (Start r) ≤ deref (End r) + 1 ∧ deref (End r) < max_int.

Section Invariants.
Context {V error : Type}.
Variable s : Series V.
Variable equalCheck : bool.
Variables lower upper : V.

(** The rows a goroutine has tested so far. *)
Definition scannedBy (w : scanner (error := error)) : list Z :=
  seqZ (deref (Start (rng w))) (row w - deref (Start (rng w))).

(** The rows a goroutine has still to test. *)
Definition rowsLeft (w : scanner (error := error)) : Z :=
  deref (End (rng w)) + 1 - row w.

(** A goroutine has found the matching rows among those it has tested; it
    returns [nil] only at the end of its sub-range, and an error only when
    the context reports that error and a row was left to test. *)
Definition scanner_inv (ctx : option error) (w : scanner) : Prop :=
  wfRange (rng w) ∧
  deref (Start (rng w)) ≤ row w ≤ deref (End (rng w)) + 1 ∧
  rowsFound w =
    filter (λ row, rowMatches s equalCheck lower upper row) (scannedBy w) ∧
  match stat w with
  | Running => True
  | Returned None => rowsLeft w = 0
  | Returned (Some e) => ctx = Some e ∧ 0 < rowsLeft w
  end.

(** Goroutine [k] is the one of core [k]; [mapRows] holds the rows of the
    goroutines that have returned, and of no other; the errgroup holds an
    error exactly when some goroutine returned one, and then it is the
    error of the context. *)
Definition state_inv (σ : state) : Prop :=
  Forall (scanner_inv (ctxErr σ)) (workers σ) ∧
  (∀ k w, workers σ !! k = Some w →
     idx w = Z.of_nat k ∧
     mapRows σ !! Z.of_nat k =
       if hasReturned w then Some (rowsFound w) else None) ∧
  match groupErr σ with
  | None => Forall (λ w, ∀ e, stat w ≠ Returned (Some e)) (workers σ)
  | Some e => ctxErr σ = Some e
  end.

(** The turns a goroutine still needs: one per row left and one to return. *)
Definition turnsOf (w : scanner (error := error)) : nat :=
  if hasReturned w then 0%nat else S (Z.to_nat (rowsLeft w)).

Definition turnsLeft (σ : state (error := error)) : nat :=
  sum_list_with turnsOf (workers σ).

End Invariants.

(** A schedule during which nobody cancels the context. *)
Definition noCancel {error} (sch : list (event (error := error))) : bool :=
  forallb (λ ev, match ev with Cancel _ => false | Sched _ => true end) sch.

(** Some goroutine is still running and has a row left to test. *)
Definition midScan {error} (σ : state (error := error)) : Prop :=
  Exists (λ w, stat w = Running ∧ 0 < rowsLeft w) (workers σ).

(** How far a goroutine has got. *)
Definition progress {error} (w : scanner (error := error))
    : Range * Z * list Z :=
  (rng w, row w, rowsFound w).

(** What [Search] relies on when [Limits] succeeds: the resolved ends are
    row indices of the column, in order.  The number of rows is a Go [int]. *)
Definition resolvesToRows {V error} (Limits : Range → Z → error + (Z * Z))
    (r : list Range) (s : Series V) : Prop :=
  ∀ start end_,
    Limits (firstRange r) (NRows s) = inr (start, end_) →
    0 ≤ start ≤ end_ ∧ end_ < NRows s ≤ max_int.

(** ** The context over a schedule *)

(** The error the context reports after the events of [sch], when it
    reported [ctx0] before them: a context keeps its first error. *)
Definition ctxAfter {error} (ctx0 : option error)
    (sch : list (event (error := error))) : option error :=
  foldl (λ c ev, match c, ev with
                 | None, Cancel reason => Some reason
                 | _, _ => c
                 end) ctx0 sch.

(** The errgroup only ever holds the error of the context, and holds one
    only when a goroutine has returned one. *)
Definition errs_ok {error} (σ : state (error := error)) : Prop :=
  ∀ e, groupErr σ = Some e →
       ctxErr σ = Some e ∧
       ∃ k w e', workers σ !! k = Some w ∧ stat w = Returned (Some e').

(** * Proofs *)

(** ** Arithmetic of the sub-ranges *)

Lemma int_wrap_id z : min_int ≤ z ≤ max_int → int_wrap z = z.
Proof.
  unfold min_int, max_int, int_wrap. intros Hz.
  rewrite Z.mod_small by lia. lia.
Qed.

(** The size of a chunk and the plain form of the sub-ranges. *)
Lemma chunk_bounds total n :
  0 ≤ total → 1 ≤ n → 0 ≤ total `div` n ∧ n * (total `div` n) ≤ total.
Proof.
  intros Ht Hn. split.
  - apply Z.div_pos; lia.
  - apply Z.mul_div_le. lia.
Qed.

Lemma subRanges_plain nCores start end_ :
  0 ≤ start ≤ end_ → end_ < max_int → 1 ≤ nCores ≤ max_int →
  subRanges nCores start end_ =
    (λ i : Z,
       let div := (end_ - start + 1) `div` nCores in
       if bool_decide (i ≠ nCores - 1)
       then {| Start := Some (i * div); End := Some ((i + 1) * div - 1) |}
       else {| Start := Some (i * div); End := Some end_ |}) <$> seqZ 0 nCores.
Proof.
  intros Hr Hend HN. unfold subRanges.
  apply list_fmap_ext. intros k i Hi.
  apply lookup_seqZ in Hi as [-> Hk]. simpl.
  assert (Hmax : max_int = 2 ^ 63 - 1) by reflexivity.
  assert (Hmin : min_int = - 2 ^ 63) by reflexivity.
  unfold int_div, int_add, int_sub, int_mul.
  rewrite (int_wrap_id (end_ - start)) by lia.
  rewrite (int_wrap_id (end_ - start + 1)) by lia.
  rewrite Z.quot_div_nonneg by lia.
  destruct (chunk_bounds (end_ - start + 1) nCores) as [Hd0 Hd1]; try lia.
  set (d := (end_ - start + 1) `div` nCores) in *.
  rewrite (int_wrap_id d) by nia.
  rewrite (int_wrap_id (nCores - 1)) by lia.
  set (i := 0 + Z.of_nat k) in *.
  assert (0 ≤ i * d ∧ (i + 1) * d ≤ end_ - start + 1) by nia.
  rewrite (int_wrap_id (i + 1)) by lia.
  rewrite (int_wrap_id (i * d)) by lia.
  rewrite (int_wrap_id ((i + 1) * d)) by lia.
  rewrite (int_wrap_id ((i + 1) * d - 1)) by lia.
  reflexivity.
Qed.

Lemma seqZ_snoc m n : 0 ≤ n → seqZ m (n + 1) = seqZ m n ++ [m + n].
Proof.
  intros Hn. by rewrite seqZ_app by lia.
Qed.

Lemma rows_of_chunks d (n : nat) :
  0 ≤ d →
  concat ((λ i : Z, seqZ (i * d) d) <$> seqZ 0 (Z.of_nat n))
  = seqZ 0 (Z.of_nat n * d).
Proof.
  intros Hd. induction n as [|n IH].
  - reflexivity.
  - rewrite seqZ_S, fmap_app, concat_app, IH. simpl.
    rewrite app_nil_r. replace (Z.of_nat (S n) * d) with (Z.of_nat n * d + d) by lia.
    rewrite seqZ_app by lia. do 2 f_equal; lia.
Qed.

(** The sub-ranges follow one another from row 0 up to [end_]. *)
Lemma subRanges_rows nCores start end_ :
  0 ≤ start ≤ end_ → end_ < max_int → 1 ≤ nCores ≤ max_int →
  concat (rowsOf <$> subRanges nCores start end_) = seqZ 0 (end_ + 1).
Proof.
  intros Hr Hend HN. rewrite subRanges_plain by done.
  destruct (chunk_bounds (end_ - start + 1) nCores) as [Hd0 Hd1]; try lia.
  set (d := (end_ - start + 1) `div` nCores) in *.
  rewrite <- list_fmap_compose.
  pose proof (seqZ_S 0 (Z.to_nat (nCores - 1))) as HS.
  replace (Z.of_nat (S (Z.to_nat (nCores - 1)))) with nCores in HS by lia.
  rewrite HS, fmap_app, concat_app.
  rewrite (list_fmap_ext _ (λ i : Z, seqZ (i * d) d) (seqZ 0 _)).
  2:{ intros k i [-> Hk]%lookup_seqZ. simpl.
      rewrite bool_decide_true by lia. unfold rowsOf. simpl. f_equal. lia. }
  rewrite rows_of_chunks by done. simpl.
  rewrite bool_decide_false by lia. unfold rowsOf. simpl.
  rewrite app_nil_r, Z2Nat.id by lia.
  replace (end_ + 1) with ((nCores - 1) * d + (end_ + 1 - (nCores - 1) * d)) at 2 by lia.
  rewrite seqZ_app by nia. do 2 f_equal; lia.
Qed.

Lemma subRanges_length nCores start end_ :
  length (subRanges nCores start end_) = Z.to_nat nCores.
Proof. unfold subRanges. by rewrite length_fmap, length_seqZ. Qed.

Lemma subRanges_wf nCores start end_ :
  0 ≤ start ≤ end_ → end_ < max_int → 1 ≤ nCores ≤ max_int →
  Forall wfRange (subRanges nCores start end_).
Proof.
  intros Hr Hend HN. rewrite subRanges_plain by done.
  destruct (chunk_bounds (end_ - start + 1) nCores) as [Hd0 Hd1]; try lia.
  set (d := (end_ - start + 1) `div` nCores) in *.
  apply Forall_fmap, Forall_seqZ. intros i Hi. unfold wfRange. simpl.
  case_bool_decide; simpl; nia.
Qed.

(** ** The goroutines, one event at a time *)

Section Running.
Context {V error : Type}.
Variable s : Series V.
Variable equalCheck : bool.
Variables lower upper : V.

Local Abbreviation scanner := (scanner (error := error)).
Local Abbreviation state := (state (error := error)).
Local Abbreviation turn := (scanner_step s equalCheck lower upper).
Local Abbreviation scanner_ok := (scanner_inv s equalCheck lower upper).
Local Abbreviation state_ok := (state_inv s equalCheck lower upper).
Local Abbreviation after := (step s equalCheck lower upper).
Local Abbreviation exec := (run s equalCheck lower upper).

(** Inside a well-formed sub-range the loop's arithmetic never wraps. *)
Lemma scanner_step_plain ctx (w : scanner) :
  wfRange (rng w) →
  deref (Start (rng w)) ≤ row w ≤ deref (End (rng w)) + 1 →
  turn ctx w =
    if bool_decide (0 < rowsLeft w) then
      match ctx with
      | Some e =>
          ({| idx := idx w; rng := rng w; row := row w;
              rowsFound := rowsFound w; stat := Returned (Some e) |}, [])
      | None =>
          ({| idx := idx w; rng := rng w; row := row w + 1;
              rowsFound :=
                if rowMatches s equalCheck lower upper (row w)
                then rowsFound w ++ [row w] else rowsFound w;
              stat := Running |}, [row w])
      end
    else
      ({| idx := idx w; rng := rng w; row := row w;
          rowsFound := rowsFound w; stat := Returned None |}, []).
Proof.
  intros [Hab Hb] Hrow. unfold scanner_step, rowsLeft, int_add.
  assert (max_int = 2 ^ 63 - 1) by reflexivity.
  assert (min_int = - 2 ^ 63) by reflexivity.
  rewrite (int_wrap_id (deref (End (rng w)) + 1)) by lia.
  destruct (decide (row w < deref (End (rng w)) + 1)) as [Hlt|Hge].
  - rewrite !bool_decide_true by lia. destruct ctx; [done|].
    by rewrite (int_wrap_id (row w + 1)) by lia.
  - by rewrite !bool_decide_false by lia.
Qed.

Lemma scannedBy_next (w : scanner) (x : status) (fnd : list Z) :
  deref (Start (rng w)) ≤ row w →
  scannedBy (error := error)
    {| idx := idx w; rng := rng w; row := row w + 1;
       rowsFound := fnd; stat := x |}
  = scannedBy w ++ [row w].
Proof.
  intros Hrow. unfold scannedBy. simpl.
  replace (row w + 1 - deref (Start (rng w)))
    with (row w - deref (Start (rng w)) + 1) by lia.
  rewrite seqZ_snoc by lia. do 2 f_equal. lia.
Qed.

(** A turn of a running goroutine keeps its invariant, its core and its
    sub-range. *)
Lemma scanner_step_inv ctx (w w' : scanner) rd :
  scanner_ok ctx w → stat w = Running →
  turn ctx w = (w', rd) →
  scanner_ok ctx w' ∧ idx w' = idx w ∧ rng w' = rng w.
Proof.
  intros (Hwf & Hrow & Hfound & _) Hrun.
  rewrite scanner_step_plain by done. pose proof Hwf as [Hab Hb].
  case_bool_decide as Hleft.
  - destruct ctx as [e|]; intros [= <- <-]; (split; [|done]).
    + unfold scanner_inv, rowsLeft, wfRange in *. simpl. repeat split; done || lia.
    + unfold rowsLeft in Hleft. split; [done|]. simpl. split; [lia|].
      split; [|done]. rewrite scannedBy_next by lia.
      rewrite filter_app, <- Hfound, filter_cons, filter_nil.
      destruct (rowMatches s equalCheck lower upper (row w)).
      * by rewrite decide_True by done.
      * rewrite decide_False by (by intros []). by rewrite app_nil_r.
  - intros [= <- <-]. split; [|done].
    unfold scanner_inv, rowsLeft, wfRange in *. simpl. repeat split; done || lia.
Qed.


(** *** Every event keeps the invariant of the state *)

Lemma cancel_inv reason (σ : state) :
  state_ok σ → state_ok (after (Cancel reason) σ).
Proof.
  intros Hinv. pose proof Hinv as (Hw & Hmap & Hg). simpl.
  destruct (ctxErr σ) as [e|] eqn:Hctx; [exact Hinv|].
  split_and!; simpl.
  - eapply Forall_impl; [exact Hw|]. intros w (? & ? & ? & Hst).
    do 3 (split; [done|]). destruct (stat w) as [|[e|]]; try done.
    by destruct Hst.
  - done.
  - by destruct (groupErr σ).
Qed.

Lemma sched_inv i (σ : state) :
  state_ok σ → state_ok (after (Sched i) σ).
Proof.
  intros Hinv. pose proof Hinv as (Hw & Hmap & Hg). simpl.
  destruct (workers σ !! i) as [w|] eqn:Hi; [|done].
  destruct (stat w) eqn:Hst; [|done].
  destruct (turn (ctxErr σ) w) as [w' rd] eqn:Hturn.
  pose proof (Forall_lookup_1 _ _ _ _ Hw Hi) as Hwi.
  destruct (scanner_step_inv _ _ _ _ Hwi Hst Hturn) as (Hw' & Hidx & Hrng).
  destruct (Hmap _ _ Hi) as [Hk Hm].
  apply lookup_lt_Some in Hi as Hlen.
  split_and!; simpl.
  - by apply Forall_insert.
  - intros k w0 Hk0. destruct (decide (k = i)) as [->|Hne].
    + rewrite list_lookup_insert_eq in Hk0 by done. injection Hk0 as <-.
      split; [congruence|]. unfold hasReturned in *. rewrite Hst in Hm.
      destruct (stat w'); [done|]. rewrite Hidx, Hk. apply lookup_insert_eq.
    + rewrite list_lookup_insert_ne in Hk0 by done.
      destruct (Hmap _ _ Hk0) as [? Hm0]. split; [done|].
      destruct (stat w'); [done|]. rewrite lookup_insert_ne; [done|lia].
  - destruct Hw' as (_ & _ & _ & Hs').
    destruct (stat w') as [|[e|]] eqn:Hst', (groupErr σ) as [g|] eqn:Hgrp;
      try done; try (apply Forall_insert; [done|]; congruence).
    by destruct Hs'.
Qed.

Lemma step_inv ev (σ : state) : state_ok σ → state_ok (after ev σ).
Proof. destruct ev; [apply cancel_inv | apply sched_inv]. Qed.

Lemma run_inv sch (σ : state) : state_ok σ → state_ok (exec sch σ).
Proof.
  revert σ. induction sch as [|ev sch IH]; intros σ Hinv; [done|].
  apply IH, step_inv, Hinv.
Qed.

Lemma run_app sch1 sch2 (σ : state) :
  exec (sch1 ++ sch2) σ = exec sch2 (exec sch1 σ).
Proof. apply foldl_app. Qed.

(** No event changes the sub-range of a goroutine. *)
Lemma step_ranges ev (σ : state) :
  state_ok σ → rng <$> workers (after ev σ) = rng <$> workers σ.
Proof.
  intros (Hw & _ & _). destruct ev as [reason|i]; simpl.
  { by destruct (ctxErr σ). }
  destruct (workers σ !! i) as [w|] eqn:Hi; [|done].
  destruct (stat w) eqn:Hst; [|done].
  destruct (turn (ctxErr σ) w) as [w' rd] eqn:Hturn.
  pose proof (Forall_lookup_1 _ _ _ _ Hw Hi) as Hwi.
  destruct (scanner_step_inv _ _ _ _ Hwi Hst Hturn) as (_ & _ & Hrng).
  simpl. rewrite list_fmap_insert, Hrng.
  apply list_insert_id. by rewrite list_lookup_fmap, Hi.
Qed.

Lemma run_ranges sch (σ : state) :
  state_ok σ → rng <$> workers (exec sch σ) = rng <$> workers σ.
Proof.
  revert σ. induction sch as [|ev sch IH]; intros σ Hinv; [done|].
  simpl. rewrite IH by by apply step_inv. by apply step_ranges.
Qed.

(** *** The goroutines at their start *)

Lemma spawnAll_ranges nCores rs :
  length rs = Z.to_nat nCores →
  rng <$> spawnAll (error := error) nCores rs = rs.
Proof.
  intros Hlen. unfold spawnAll. apply list_eq. intros k.
  rewrite list_lookup_fmap, lookup_zip_with.
  destruct (rs !! k) as [r|] eqn:Hr.
  - apply lookup_lt_Some in Hr as Hk.
    rewrite lookup_seqZ_lt by lia. by simpl.
  - by destruct (seqZ 0 nCores !! k).
Qed.

Lemma spawnAll_inv nCores rs (ctx0 : option error) :
  Forall wfRange rs →
  state_ok {| ctxErr := ctx0; workers := spawnAll nCores rs;
              mapRows := ∅; groupErr := None; fetched := [] |}.
Proof.
  intros Hwf.
  assert (∀ k w, spawnAll (error := error) nCores rs !! k = Some w →
            ∃ r, rs !! k = Some r ∧ w = spawn (Z.of_nat k) r) as Hspawn.
  { intros k w (i & r & -> & [-> _]%lookup_seqZ & Hr)%lookup_zip_with_Some.
    exists r. by rewrite Z.add_0_l. }
  split_and!; simpl.
  - apply Forall_lookup_2. intros k w (r & Hr & ->)%Hspawn.
    pose proof (Forall_lookup_1 _ _ _ _ Hwf Hr) as Hwfr.
    pose proof Hwfr as [? ?].
    unfold scanner_inv, scannedBy. simpl. split_and!; try done; try lia.
    by rewrite Z.sub_diag.
  - by intros k w (r & Hr & ->)%Hspawn.
  - apply Forall_lookup_2. by intros k w (r & Hr & ->)%Hspawn.
Qed.

(** *** What [g.Wait()] finds *)

(** Once every goroutine has returned, [mapRows] holds the rows found by
    each, and the aggregation lists them in goroutine order. *)
Lemma aggregate_found nCores (σ : state) :
  state_ok σ → length (workers σ) = Z.to_nat nCores →
  finished σ = true →
  aggregate nCores (mapRows σ) = concat (rowsFound <$> workers σ).
Proof.
  intros (_ & Hmap & _) Hlen Hfin. unfold aggregate. f_equal.
  apply list_eq. intros k. rewrite !list_lookup_fmap.
  destruct (workers σ !! k) as [w|] eqn:Hk.
  - apply lookup_lt_Some in Hk as Hlt.
    rewrite lookup_seqZ_lt by lia. simpl.
    destruct (Hmap _ _ Hk) as [_ Hm]. rewrite Z.add_0_l, Hm.
    unfold finished in Hfin. rewrite forallb_forall in Hfin.
    rewrite (Hfin w); [done|]. apply list_elem_of_In. by eapply list_elem_of_lookup_2.
  - apply lookup_ge_None in Hk. by rewrite lookup_seqZ_ge by lia.
Qed.

Lemma filter_concat {A} (P : A → Prop) `{!∀ x, Decision (P x)} (ls : list (list A)) :
  filter P (concat ls) = concat (filter P <$> ls).
Proof.
  induction ls as [|l ls IH]; [done|]. simpl. by rewrite filter_app, IH.
Qed.

Lemma elem_of_concat {A} (x : A) (ls : list (list A)) :
  x ∈ concat ls ↔ ∃ l, x ∈ l ∧ l ∈ ls.
Proof.
  induction ls as [|k ls IH]; simpl.
  - split; [by intros ?%elem_of_nil|]. by intros (l & _ & ?%elem_of_nil).
  - rewrite elem_of_app, IH. split.
    + intros [Hx|(l & Hx & Hl)]; [exists k|exists l];
        (split; [done|]); [left|by right].
    + intros (l & Hx & [->|Hl]%elem_of_cons); [by left|right; by exists l].
Qed.

Lemma sublist_concat {A} (ls ks : list (list A)) :
  Forall2 sublist ls ks → concat ls `sublist_of` concat ks.
Proof.
  induction 1 as [|l k ls ks Hlk _ IH]; [done|]. simpl. by apply sublist_app.
Qed.

Lemma StronglySorted_seqZ m n : StronglySorted Z.lt (seqZ m n).
Proof.
  destruct (decide (0 ≤ n)) as [Hn|Hn]; [|rewrite seqZ_nil by lia; constructor].
  rewrite <- (Z2Nat.id n) by done. clear Hn.
  induction (Z.to_nat n) as [|k IH]; [constructor|].
  rewrite seqZ_S. apply StronglySorted_app_2; [|done|repeat constructor].
  intros x y [_ Hx]%elem_of_seqZ ->%list_elem_of_singleton. lia.
Qed.

Lemma StronglySorted_sublist {A} (R : relation A) (l k : list A) :
  l `sublist_of` k → StronglySorted R k → StronglySorted R l.
Proof.
  induction 1 as [|x l k Hlk IH|x l k Hlk IH]; rewrite ?StronglySorted_cons.
  - done.
  - intros [Hx Hk]. split; [|by apply IH].
    eapply Forall_impl with (P := λ y, y ∈ k).
    + apply Forall_forall. intros y Hy. by eapply sublist_subseteq.
    + intros y Hy. by eapply Forall_forall in Hx.
  - intros [_ Hk]. by apply IH.
Qed.

Lemma StronglySorted_lt_NoDup (l : list Z) : StronglySorted Z.lt l → NoDup l.
Proof.
  induction 1 as [|x l _ IH Hx]; constructor; [|done].
  intros Hin. eapply Forall_forall in Hx; [|exact Hin]. lia.
Qed.

(** The rows found by a goroutine start the list of the matching rows of its
    sub-range; the rest are the matching rows among those it has left. *)
Lemma found_prefix ctx (w : scanner) :
  scanner_ok ctx w →
  filter (λ row, rowMatches s equalCheck lower upper row) (rowsOf (rng w))
  = rowsFound w ++
    filter (λ row, rowMatches s equalCheck lower upper row)
           (seqZ (row w) (rowsLeft w)).
Proof.
  intros ([? ?] & ? & -> & _). unfold rowsOf, scannedBy, rowsLeft.
  set (a := deref (Start (rng w))) in *. set (b := deref (End (rng w))) in *.
  replace (seqZ (row w) (b + 1 - row w))
    with (seqZ (a + (row w - a)) (b + 1 - row w)) by (f_equal; lia).
  rewrite <- filter_app, <- seqZ_app by lia. do 2 f_equal; lia.
Qed.

(** *** Runs under a cancelled context, and runs that nobody cancels *)

(** Once the context reports an error no goroutine tests another row: each
    keeps its place and its rows, and no value is fetched. *)
Lemma step_cancelled ev (σ : state) e :
  state_ok σ → ctxErr σ = Some e →
  ctxErr (after ev σ) = Some e ∧
  fetched (after ev σ) = fetched σ ∧
  progress <$> workers (after ev σ) = progress <$> workers σ.
Proof.
  intros (Hw & _ & _) Hctx. destruct ev as [reason|i]; simpl.
  { by rewrite Hctx. }
  destruct (workers σ !! i) as [w|] eqn:Hi; [|done].
  destruct (stat w) eqn:Hst; [|done].
  pose proof (Forall_lookup_1 _ _ _ _ Hw Hi) as (Hwf & Hrow & _).
  rewrite scanner_step_plain, Hctx by done.
  assert (∀ x, <[i:=progress (error := error)
                 {| idx := idx w; rng := rng w; row := row w;
                    rowsFound := rowsFound w; stat := x |}]>
                 (progress <$> workers σ) = progress <$> workers σ) as Hsame.
  { intros x. apply list_insert_id. by rewrite list_lookup_fmap, Hi. }
  case_bool_decide; simpl; rewrite list_fmap_insert, Hsame, ?app_nil_r; done.
Qed.

Lemma run_cancelled sch (σ : state) e :
  state_ok σ → ctxErr σ = Some e →
  ctxErr (exec sch σ) = Some e ∧
  fetched (exec sch σ) = fetched σ ∧
  progress <$> workers (exec sch σ) = progress <$> workers σ.
Proof.
  revert σ. induction sch as [|ev sch IH]; intros σ Hinv Hctx; [done|].
  destruct (step_cancelled ev σ e Hinv Hctx) as (Hc & Hf & Hp).
  simpl. destruct (IH (after ev σ)) as (-> & -> & ->); [by apply step_inv|done|].
  done.
Qed.

Lemma run_noCancel sch (σ : state) :
  noCancel sch = true → ctxErr σ = None → ctxErr (exec sch σ) = None.
Proof.
  revert σ. induction sch as [|[reason|i] sch IH]; intros σ Hsch Hctx;
    [done..|].
  simpl in *. apply IH; [done|]. simpl.
  destruct (workers σ !! i) as [w|]; [|done].
  destruct (stat w); [|done]. by destruct (turn (ctxErr σ) w).
Qed.

(** A goroutine of a finished run that had a row left has returned the
    error of the context, and that is the error the errgroup hands back. *)
Lemma error_exit (σ : state) i (w : scanner) :
  state_ok σ → finished σ = true →
  workers σ !! i = Some w → 0 < rowsLeft w →
  groupErr σ = ctxErr σ ∧ is_Some (ctxErr σ).
Proof.
  intros (Hw & _ & Hg) Hfin Hi Hleft.
  pose proof (Forall_lookup_1 _ _ _ _ Hw Hi) as (_ & _ & _ & Hst).
  unfold finished in Hfin. rewrite forallb_forall in Hfin.
  specialize (Hfin w). unfold hasReturned in Hfin.
  destruct (stat w) as [|[e|]] eqn:Hstat.
  - assert (false = true); [|done].
    apply Hfin, list_elem_of_In. by eapply list_elem_of_lookup_2.
  - destruct Hst as [Hctx _]. split; [|by rewrite Hctx].
    destruct (groupErr σ) as [g|]; [congruence|].
    pose proof (Forall_lookup_1 _ _ _ _ Hg Hi e). done.
  - lia.
Qed.

(** In a finished run whose errgroup holds no error, every goroutine has
    walked its whole sub-range. *)
Lemma clean_exit (σ : state) :
  state_ok σ → finished σ = true → groupErr σ = None →
  Forall (λ w, rowsLeft w = 0) (workers σ).
Proof.
  intros (Hw & _ & Hg) Hfin Hnone. rewrite Hnone in Hg.
  unfold finished in Hfin. rewrite forallb_forall in Hfin.
  apply Forall_forall. intros w Hin.
  pose proof (proj1 (Forall_forall _ _) Hw w Hin) as (_ & _ & _ & Hst).
  pose proof (proj1 (Forall_forall _ _) Hg w Hin) as Hne. simpl in Hne.
  specialize (Hfin w). unfold hasReturned in Hfin.
  destruct (stat w) as [|[e|]].
  - assert (false = true); [|done]. by apply Hfin, list_elem_of_In.
  - by specialize (Hne e).
  - done.
Qed.

(** *** Every run can be brought to its end *)

Lemma sum_list_with_insert {A} (f : A → nat) (l : list A) i x y :
  l !! i = Some x →
  (sum_list_with f (<[i:=y]> l) + f x = sum_list_with f l + f y)%nat.
Proof.
  revert i. induction l as [|z l IH]; intros [|i] Hi; simplify_eq/=; [lia|].
  specialize (IH i Hi). lia.
Qed.

Lemma sched_turnsLeft i (σ : state) (w : scanner) :
  state_ok σ → workers σ !! i = Some w → stat w = Running →
  (turnsLeft (after (Sched i) σ) < turnsLeft σ)%nat.
Proof.
  intros (Hw & _ & _) Hi Hst. unfold turnsLeft. simpl. rewrite Hi, Hst.
  pose proof (Forall_lookup_1 _ _ _ _ Hw Hi) as (Hwf & Hrow & _).
  rewrite scanner_step_plain by done.
  assert (∀ w' : scanner,
            (turnsOf w' < turnsOf w)%nat →
            (sum_list_with turnsOf (<[i:=w']> (workers σ))
             < sum_list_with turnsOf (workers σ))%nat) as Hless.
  { intros w' Hlt.
    pose proof (sum_list_with_insert turnsOf _ _ _ w' Hi). lia. }
  case_bool_decide as Hleft; [destruct (ctxErr σ)|]; simpl; apply Hless;
    unfold turnsOf, hasReturned, rowsLeft in *; rewrite Hst; simpl; lia.
Qed.

Lemma forallb_false_lookup {A} (f : A → bool) (l : list A) :
  forallb f l = false → ∃ i x, l !! i = Some x ∧ f x = false.
Proof.
  induction l as [|x l IH]; [done|]. simpl. destruct (f x) eqn:Hx.
  - intros Hl. destruct (IH Hl) as (i & y & ? & ?). by exists (S i), y.
  - intros _. by exists 0%nat, x.
Qed.

Lemma run_finishes (σ : state) :
  state_ok σ → ∃ sch, noCancel sch = true ∧ finished (exec sch σ) = true.
Proof.
  remember (turnsLeft σ) as n eqn:Hn. revert σ Hn.
  induction (lt_wf n) as [n _ IH]. intros σ -> Hinv.
  destruct (finished σ) eqn:Hfin; [by exists []|].
  assert (∃ i w, workers σ !! i = Some w ∧ stat w = Running)
    as (i & w & Hi & Hst).
  { apply forallb_false_lookup in Hfin as (i & w & Hi & Hw).
    exists i, w. split; [done|]. unfold hasReturned in Hw.
    by destruct (stat w). }
  destruct (IH _ (sched_turnsLeft i σ w Hinv Hi Hst) _ eq_refl)
    as (sch & Hsch & Hend); [by apply step_inv|].
  by exists (Sched i :: sch).
Qed.

(** *** The log of the fetched rows *)

Lemma concat_insert_snoc {A} (ls : list (list A)) i l x :
  ls !! i = Some l → concat (<[i:=l ++ [x]]> ls) ≡ₚ concat ls ++ [x].
Proof.
  revert i. induction ls as [|k ls IH]; intros [|i] Hi; simplify_eq/=.
  - rewrite <- !(assoc_L (++)). f_equiv. apply Permutation_app_comm.
  - rewrite (IH i Hi). by rewrite (assoc_L (++)).
Qed.

(** The rows handed to [s.Value] are the rows the goroutines have tested,
    each fetched once. *)
Lemma step_fetched ev (σ : state) :
  state_ok σ →
  fetched σ ≡ₚ concat (scannedBy <$> workers σ) →
  fetched (after ev σ) ≡ₚ concat (scannedBy <$> workers (after ev σ)).
Proof.
  intros (Hw & _ & _) Hlog. destruct ev as [reason|i]; simpl.
  { by destruct (ctxErr σ). }
  destruct (workers σ !! i) as [w|] eqn:Hi; [|done].
  destruct (stat w) eqn:Hst; [|done].
  pose proof (Forall_lookup_1 _ _ _ _ Hw Hi) as (Hwf & Hrow & _).
  rewrite scanner_step_plain by done.
  assert (∀ x, <[i:=scannedBy (error := error)
                 {| idx := idx w; rng := rng w; row := row w;
                    rowsFound := rowsFound w; stat := x |}]>
                 (scannedBy <$> workers σ) = scannedBy <$> workers σ) as Hsame.
  { intros x. apply list_insert_id. by rewrite list_lookup_fmap, Hi. }
  case_bool_decide; [destruct (ctxErr σ)|]; simpl; rewrite list_fmap_insert;
    rewrite ?Hsame, ?app_nil_r; try done.
  rewrite scannedBy_next by lia. rewrite concat_insert_snoc.
  - by rewrite Hlog.
  - by rewrite list_lookup_fmap, Hi.
Qed.

Lemma run_fetched sch (σ : state) :
  state_ok σ →
  fetched σ ≡ₚ concat (scannedBy <$> workers σ) →
  fetched (exec sch σ) ≡ₚ concat (scannedBy <$> workers (exec sch σ)).
Proof.
  revert σ. induction sch as [|ev sch IH]; intros σ Hinv Hlog; [done|].
  simpl. apply IH; [by apply step_inv | by apply step_fetched].
Qed.

(** The rows found are the matching rows among the rows tested. *)
Lemma found_scanned (σ : state) :
  state_ok σ →
  concat (rowsFound <$> workers σ)
  = filter (λ row, rowMatches s equalCheck lower upper row)
           (concat (scannedBy <$> workers σ)).
Proof.
  intros (Hw & _ & _). rewrite filter_concat, <- list_fmap_compose. f_equal.
  apply list_fmap_ext. intros k w Hk.
  by pose proof (Forall_lookup_1 _ _ _ _ Hw Hk) as (_ & _ & -> & _).
Qed.

End Running.

(** ** A call of [Search] on a range that resolves *)

Section Calls.
Context {V error : Type}.
Variable cmpEqual : V → V → bool.
Variable Limits : Range → Z → error + (Z * Z).
Variable nCores : Z.
Variable s : Series V.
Variables lower upper : V.
Variable r : list Range.
Variables start end_ : Z.

Hypothesis resolves : Limits (firstRange r) (NRows s) = inr (start, end_).
Hypothesis in_order : 0 ≤ start ≤ end_.
Hypothesis in_int : end_ < max_int.
Hypothesis cores : 1 ≤ nCores ≤ max_int.

Local Abbreviation equalCheck := (cmpEqual lower upper).
Local Abbreviation exec := (run s equalCheck lower upper).
Local Abbreviation state_ok := (state_inv s equalCheck lower upper).
Local Abbreviation call := (Search cmpEqual Limits nCores).
Local Abbreviation begun := (started (error := error) nCores).

Lemma running_started sch ctx0 :
  running cmpEqual Limits nCores sch ctx0 s lower upper r
  = inr (exec sch (begun ctx0 start end_)).
Proof. unfold running, launch. by rewrite resolves. Qed.

Lemma started_inv ctx0 : state_ok (begun ctx0 start end_).
Proof. by apply spawnAll_inv, subRanges_wf. Qed.

Lemma running_inv sch ctx0 : state_ok (exec sch (begun ctx0 start end_)).
Proof. apply run_inv, started_inv. Qed.

Lemma running_ranges sch ctx0 :
  rng <$> workers (exec sch (begun ctx0 start end_))
  = subRanges nCores start end_.
Proof.
  rewrite (run_ranges s equalCheck lower upper) by apply started_inv.
  apply spawnAll_ranges, subRanges_length.
Qed.

Lemma running_length sch ctx0 :
  length (workers (exec sch (begun ctx0 start end_))) = Z.to_nat nCores.
Proof.
  rewrite <- (length_fmap rng), running_ranges. apply subRanges_length.
Qed.

Lemma running_fetched sch ctx0 :
  fetched (exec sch (begun ctx0 start end_))
  ≡ₚ concat (scannedBy <$> workers (exec sch (begun ctx0 start end_))).
Proof.
  apply run_fetched; [apply started_inv|]. simpl.
  assert (Forall (λ l : list Z, l = [])
            (scannedBy <$> spawnAll (error := error) nCores
                             (subRanges nCores start end_))) as Hnil.
  { apply Forall_fmap, Forall_lookup_2.
    intros k w (i & rg & -> & _ & _)%lookup_zip_with_Some.
    unfold scannedBy. simpl. by rewrite Z.sub_diag. }
  induction Hnil as [|l ls -> _ IH]; [done|]. by simpl.
Qed.

(** Every row handed to [s.Value] is one of the rows 0 to [end_], so no
    access leaves the column. *)
Lemma running_fetched_rows sch ctx0 row :
  row ∈ fetched (exec sch (begun ctx0 start end_)) → 0 ≤ row ≤ end_.
Proof.
  rewrite running_fetched.
  intros (l & Hrow & (w & -> & Hw)%list_elem_of_fmap)%elem_of_concat.
  pose proof (running_inv sch ctx0) as (Hinv & _ & _).
  pose proof (proj1 (Forall_forall _ _) Hinv w Hw) as ([? ?] & ? & _).
  assert (row ∈ concat (rowsOf <$> subRanges nCores start end_)) as Hin.
  { rewrite <- (running_ranges sch ctx0), <- list_fmap_compose.
    apply elem_of_concat. exists (rowsOf (rng w)). split.
    - unfold scannedBy, rowsOf in *. apply elem_of_seqZ in Hrow.
      apply elem_of_seqZ. lia.
    - by apply (list_elem_of_fmap_2 (rowsOf ∘ rng)). }
  rewrite subRanges_rows in Hin by done. apply elem_of_seqZ in Hin. lia.
Qed.

(** What a call hands back, read off the state in which [g.Wait()] returns. *)
Lemma Search_Some sch ctx0 out :
  call sch ctx0 s lower upper r = Some out ↔
  finished (exec sch (begun ctx0 start end_)) = true ∧
  out = {| rows := concat (rowsFound <$>
                             workers (exec sch (begun ctx0 start end_)));
           err := groupErr (exec sch (begun ctx0 start end_));
           reads := fetched (exec sch (begun ctx0 start end_)) |}.
Proof.
  unfold Search. rewrite running_started.
  destruct (finished _) eqn:Hfin.
  - rewrite (aggregate_found s equalCheck lower upper)
      by (apply running_inv || apply running_length || done).
    split; [by intros [= <-]|by intros [_ ->]].
  - split; [done|by intros [? _]].
Qed.

(** The rows handed back are the matching rows among the rows fetched. *)
Lemma Search_rows_reads sch ctx0 out :
  call sch ctx0 s lower upper r = Some out →
  rows out ≡ₚ
    filter (λ row, rowMatches s equalCheck lower upper row) (reads out).
Proof.
  intros [_ ->]%Search_Some. simpl.
  rewrite (found_scanned s equalCheck lower upper) by apply running_inv.
  by rewrite running_fetched.
Qed.

(** A call that ends without error has walked the rows 0 to [end_]. *)
Lemma Search_rows_full sch ctx0 out :
  call sch ctx0 s lower upper r = Some out → err out = None →
  rows out
  = filter (λ row, rowMatches s equalCheck lower upper row)
           (seqZ 0 (end_ + 1)) ∧
  reads out ≡ₚ seqZ 0 (end_ + 1).
Proof.
  intros [Hfin ->]%Search_Some Herr. simpl in *.
  pose proof (running_inv sch ctx0) as Hinv.
  pose proof (clean_exit _ _ _ _ _ Hinv Hfin Herr) as Hleft.
  pose proof Hinv as (Hw & _ & _).
  rewrite <- (subRanges_rows nCores start end_) by done.
  rewrite <- (running_ranges sch ctx0), <- !list_fmap_compose.
  assert (scannedBy <$> workers (exec sch (begun ctx0 start end_))
          = rowsOf ∘ rng <$> workers (exec sch (begun ctx0 start end_)))
    as Hall.
  { apply list_fmap_ext. intros k w Hk. simpl.
    pose proof (Forall_lookup_1 _ _ _ _ Hleft Hk) as Hk0. simpl in Hk0.
    unfold scannedBy, rowsOf, rowsLeft in *. f_equal. lia. }
  split.
  - rewrite (found_scanned s equalCheck lower upper) by done. by rewrite Hall.
  - by rewrite running_fetched, Hall.
Qed.

(** So a call that ends without error finds what a sequential pass over the
    rows 0 to [end_] finds, whatever the start of the resolved range. *)
Lemma Search_rows_from_zero sch ctx0 out :
  call sch ctx0 s lower upper r = Some out → err out = None →
  rows out = sequentialScan s equalCheck lower upper 0 end_.
Proof.
  intros Hout Herr. destruct (Search_rows_full _ _ _ Hout Herr) as [-> _].
  unfold sequentialScan. by rewrite Z.sub_0_r.
Qed.

(** However a call ends, its rows are picked, in order, from the rows that
    a call without error hands back. *)
Lemma Search_rows_sublist sch ctx0 out :
  call sch ctx0 s lower upper r = Some out →
  rows out `sublist_of`
    filter (λ row, rowMatches s equalCheck lower upper row)
           (seqZ 0 (end_ + 1)).
Proof.
  intros [Hfin ->]%Search_Some. simpl.
  pose proof (running_inv sch ctx0) as (Hw & _ & _).
  rewrite <- (subRanges_rows nCores start end_) by done.
  rewrite <- (running_ranges sch ctx0), <- list_fmap_compose.
  rewrite filter_concat, <- list_fmap_compose.
  apply sublist_concat, Forall2_fmap, Forall_Forall2_diag.
  eapply Forall_impl; [exact Hw|]. intros w Hwi. simpl.
  rewrite (found_prefix _ _ _ _ _ _ Hwi). by apply sublist_inserts_r.
Qed.

(** A call that nobody cancels ends without error. *)
Lemma Search_noCancel sch out :
  noCancel sch = true →
  call sch None s lower upper r = Some out → err out = None.
Proof.
  intros Hsch [_ ->]%Search_Some. simpl.
  pose proof (running_inv sch None) as (_ & _ & Hg).
  rewrite (run_noCancel s equalCheck lower upper) in Hg by done.
  by destruct (groupErr _).
Qed.

(** Whatever has happened so far, the goroutines can all be brought to
    return, and then the call returns. *)
Lemma Search_returns sch ctx0 :
  ∃ sch', noCancel sch' = true ∧
          is_Some (call (sch ++ sch') ctx0 s lower upper r).
Proof.
  destruct (run_finishes s equalCheck lower upper _ (running_inv sch ctx0))
    as (sch' & Hsch' & Hfin).
  exists sch'. split; [done|]. eexists. apply Search_Some.
  rewrite run_app. by split.
Qed.


(** When the goroutines start, one of them has a row to test: row 0. *)
Lemma started_midScan ctx0 : midScan (begun ctx0 start end_).
Proof.
  assert (0 ∈ concat (rowsOf <$> subRanges nCores start end_)) as Hin.
  { rewrite subRanges_rows by done. apply elem_of_seqZ. lia. }
  apply elem_of_concat in Hin as (l & H0 & Hl).
  apply list_elem_of_fmap in Hl as (rg & -> & Hrg).
  apply list_elem_of_lookup in Hrg as [k Hk].
  unfold midScan. simpl. apply Exists_exists.
  exists (spawn (Z.of_nat k) rg). split.
  - apply list_elem_of_lookup. exists k. unfold spawnAll.
    apply lookup_zip_with_Some. exists (Z.of_nat k), rg.
    split_and!; [done| |done]. apply lookup_seqZ. split; [lia|].
    apply lookup_lt_Some in Hk. rewrite subRanges_length in Hk. lia.
  - split; [done|]. unfold rowsOf in H0. apply elem_of_seqZ in H0.
    unfold rowsLeft. simpl. lia.
Qed.

(** Once the context reports an error while a goroutine has a row left,
    the call ends with that error, and with the rows and the log it had. *)
Lemma Search_cancelled sch1 sch2 ctx0 σ1 e out :
  running cmpEqual Limits nCores sch1 ctx0 s lower upper r = inr σ1 →
  ctxErr σ1 = Some e → midScan σ1 →
  call (sch1 ++ sch2) ctx0 s lower upper r = Some out →
  err out = Some e ∧
  rows out = concat (rowsFound <$> workers σ1) ∧
  reads out = fetched σ1.
Proof.
  rewrite running_started. intros [= <-] Hctx Hmid [Hfin ->]%Search_Some.
  rewrite run_app in *. simpl.
  pose proof (running_inv sch1 ctx0) as Hinv1.
  pose proof (run_inv s equalCheck lower upper sch2 _ Hinv1) as Hinv2.
  destruct (run_cancelled s equalCheck lower upper sch2 _ e Hinv1 Hctx)
    as (Hctx2 & Hlog & Hprog).
  set (σ1 := exec sch1 (begun ctx0 start end_)) in *.
  set (σ2 := exec sch2 σ1) in *.
  split_and!; [| |done].
  - apply Exists_exists in Hmid as (w & [k Hk]%list_elem_of_lookup & _ & Hleft).
    assert ((progress <$> workers σ2) !! k = Some (progress w)) as Hk2.
    { by rewrite Hprog, list_lookup_fmap, Hk. }
    apply list_lookup_fmap_Some in Hk2 as (w2 & [= Hrng Hrow _] & Hw2).
    destruct (error_exit s equalCheck lower upper σ2 k w2) as [-> _];
      try done. unfold rowsLeft in *. by rewrite <- Hrng, <- Hrow.
  - change (@rowsFound error) with (snd ∘ @progress error).
    by rewrite !list_fmap_compose, Hprog.
Qed.

End Calls.

(** * The claims *)

(** ** The partitioning step *)

(** C1: the sub-ranges built for the resolved range (2, 4) on two cores are
    [0..0] and [1..4]: they are contiguous and ascending but cover the rows
    0 to 4, not the resolved range 2 to 4, because the start of the range is
    not added to the start of a sub-range. *)
Theorem subRanges_ignore_start :
  subRanges 2 2 4 = [rowRange 0 0; rowRange 1 4] ∧
  concat (rowsOf <$> subRanges 2 2 4) = [0; 1; 2; 3; 4] ∧
  concat (rowsOf <$> subRanges 2 2 4) ≠ seqZ 2 (4 - 2 + 1).
Proof. by vm_compute. Qed.

(** ** Searching *)

(** C2: on the column [5, 3, 9, 3, 7] with bounds 3 and 7, the range 2 to 4
    and two cores, an uncancelled [Search] hands back the rows 0, 1, 3, 4,
    where a sequential pass over the rows 2 to 4 finds the rows 3 and 4. *)
Theorem Search_scans_below_start :
  searchInts 2 (sequentially 2 6) None [5; 3; 9; 3; 7] 3 7 [rowRange 2 4]
  = Some {| rows := [0; 1; 3; 4]; err := None; reads := [0; 1; 2; 3; 4] |} ∧
  resolveLimits (rowRange 2 4) 5 = inr (2, 4) ∧
  sequentialScan (intSeries [5; 3; 9; 3; 7]) (Z.eqb 3 7) 3 7 2 4 = [3; 4].
Proof. by vm_compute. Qed.

(** C3: whatever the schedule of the goroutines and whenever the context is
    cancelled, the rows handed back are strictly ascending, hence without
    duplicates. *)
Theorem Search_rows_ascending {V error} (cmpEqual : V → V → bool)
    (Limits : Range → Z → error + (Z * Z)) (nCores : Z) (s : Series V)
    (lower upper : V) (r : list Range) (sch : list event)
    (ctx0 : option error) (out : outcome) :
  resolvesToRows Limits r s → 1 ≤ nCores ≤ max_int →
  Search cmpEqual Limits nCores sch ctx0 s lower upper r = Some out →
  StronglySorted Z.lt (rows out) ∧ NoDup (rows out).
Proof.
  intros Hres HN Hout.
  assert (StronglySorted Z.lt (rows out)) as Hsorted.
  { destruct (Limits (firstRange r) (NRows s)) as [e|[start end_]] eqn:Hlim.
    - unfold Search, running, launch in Hout. rewrite Hlim in Hout.
      injection Hout as <-. constructor.
    - destruct (Hres _ _ Hlim) as [? ?].
      eapply StronglySorted_sublist.
      + eapply (Search_rows_sublist cmpEqual Limits nCores s lower upper r
                  start end_); [done|done|lia|done|exact Hout].
      + eapply StronglySorted_sublist;
          [apply sublist_filter | apply StronglySorted_seqZ]. }
  split; [done|by apply StronglySorted_lt_NoDup].
Qed.

Lemma Search_rows_ascending_witness :
  searchInts 2
    [Sched 1; Sched 0; Sched 0; Cancel CancellationError; Sched 1; Sched 0]
    None [5; 3; 9; 3; 7] 3 7 []
  = Some {| rows := [0; 1]; err := Some CancellationError;
            reads := [2; 0; 1] |} ∧
  StronglySorted Z.lt [0; 1] ∧ NoDup [0; 1].
Proof.
  split; [by vm_compute|].
  apply (Search_rows_ascending Z.eqb resolveLimits 2
           (intSeries [5; 3; 9; 3; 7]) 3 7 []
           [Sched 1; Sched 0; Sched 0; Cancel CancellationError;
            Sched 1; Sched 0]
           None
           {| rows := [0; 1]; err := Some CancellationError;
              reads := [2; 0; 1] |}).
  - intros a b Hlim. vm_compute in Hlim. injection Hlim as <- <-.
    unfold max_int. simpl. lia.
  - unfold max_int. lia.
  - by vm_compute.
Defined.

(** C4: on the column [5, 3, 9, 3, 7] with both bounds 3 (deep-equal, so
    that the call runs in equality mode), the range 2 to 4 and two cores, an
    uncancelled [Search] hands back the rows 1 and 3, where the only row of
    the rows 2 to 4 whose value is equal to 3 is row 3: row 1 lies below the
    range searched. *)
Theorem Search_equality_below_start :
  (3 =? 3) = true ∧
  resolveLimits (rowRange 2 4) 5 = inr (2, 4) ∧
  searchInts 2 (sequentially 2 6) None [5; 3; 9; 3; 7] 3 3 [rowRange 2 4]
  = Some {| rows := [1; 3]; err := None; reads := [0; 1; 2; 3; 4] |} ∧
  filter (λ row, IsEqualFunc (intSeries [5; 3; 9; 3; 7])
                   (Value (intSeries [5; 3; 9; 3; 7]) row) 3)
         (seqZ 2 (4 - 2 + 1))
  = [3] ∧
  sequentialScan (intSeries [5; 3; 9; 3; 7]) (3 =? 3) 3 3 2 4 = [3].
Proof. by vm_compute. Qed.

(** X16: when [lower] and [upper] are deep-equal, a call hands back, among
    the rows it has fetched, exactly those whose value is equal to [lower]
    under [IsEqualFunc] ([IsLessThanFunc] is not consulted); a call without
    error has gone through all the rows of its sub-ranges, and some call
    without error exists. *)
Theorem Search_equality_mode {V error} (cmpEqual : V → V → bool)
    (Limits : Range → Z → error + (Z * Z)) (nCores : Z) (s : Series V)
    (lower upper : V) (r : list Range) (start end_ : Z) :
  Limits (firstRange r) (NRows s) = inr (start, end_) →
  0 ≤ start ≤ end_ → end_ < max_int → 1 ≤ nCores ≤ max_int →
  cmpEqual lower upper = true →
  (∃ sch out,
     Search cmpEqual Limits nCores sch None s lower upper r = Some out ∧
     err out = None) ∧
  (∀ sch ctx0 out,
     Search cmpEqual Limits nCores sch ctx0 s lower upper r = Some out →
     (∀ row, row ∈ rows out ↔
             row ∈ reads out ∧ IsEqualFunc s (Value s row) lower = true) ∧
     (err out = None →
      rows out = filter (λ row, IsEqualFunc s (Value s row) lower)
                        (concat (rowsOf <$> subRanges nCores start end_)))).
Proof.
  intros Hlim Hord Hint HN Heq. split.
  - destruct (Search_returns cmpEqual Limits nCores s lower upper r
                start end_ Hlim Hord Hint HN [] None)
      as (sch & Hsch & out & Hout).
    exists sch, out. split; [done|].
    by eapply Search_noCancel.
  - intros sch ctx0 out Hout. split.
    + intros row.
      rewrite (Search_rows_reads cmpEqual Limits nCores s lower upper r
                 start end_ Hlim Hord Hint HN _ _ _ Hout).
      rewrite list_elem_of_filter, Heq. unfold rowMatches, valueMatches.
      rewrite Is_true_true. tauto.
    + intros Herr.
      destruct (Search_rows_full cmpEqual Limits nCores s lower upper r
                  start end_ Hlim Hord Hint HN _ _ _ Hout Herr) as [-> _].
      by rewrite subRanges_rows, Heq.
Qed.

Lemma Search_equality_mode_witness :
  searchInts 3 (sequentially 3 4) None [5; 3; 9; 3; 7] 3 3 []
  = Some {| rows := [1; 3]; err := None; reads := [0; 1; 2; 3; 4] |} ∧
  [1; 3] = filter (λ row, IsEqualFunc (intSeries [5; 3; 9; 3; 7])
                            (Value (intSeries [5; 3; 9; 3; 7]) row) 3)
                  (concat (rowsOf <$> subRanges 3 0 4)).
Proof.
  split; [by vm_compute|].
  refine (proj2 (proj2 (Search_equality_mode Z.eqb resolveLimits 3
            (intSeries [5; 3; 9; 3; 7]) 3 3 [] 0 4 _ _ _ _ _)
            (sequentially 3 4) None
            {| rows := [1; 3]; err := None; reads := [0; 1; 2; 3; 4] |} _) _);
    try (unfold max_int; lia); by vm_compute.
Defined.

(** C5: when [lower] and [upper] are not deep-equal, a row that a call has
    fetched is among the rows handed back if and only if its value is not
    less than [lower] and is less than or equal to [upper]. *)
Theorem Search_range_mode {V error} (cmpEqual : V → V → bool)
    (Limits : Range → Z → error + (Z * Z)) (nCores : Z) (s : Series V)
    (lower upper : V) (r : list Range) (start end_ : Z)
    (sch : list event) (ctx0 : option error) (out : outcome) :
  Limits (firstRange r) (NRows s) = inr (start, end_) →
  0 ≤ start ≤ end_ → end_ < max_int → 1 ≤ nCores ≤ max_int →
  cmpEqual lower upper = false →
  Search cmpEqual Limits nCores sch ctx0 s lower upper r = Some out →
  ∀ row, row ∈ reads out →
    (row ∈ rows out ↔
     negb (IsLessThanFunc s (Value s row) lower)
     && (IsLessThanFunc s (Value s row) upper
         || IsEqualFunc s (Value s row) upper) = true).
Proof.
  intros Hlim Hord Hint HN Hne Hout row Hrow.
  rewrite (Search_rows_reads cmpEqual Limits nCores s lower upper r
             start end_ Hlim Hord Hint HN _ _ _ Hout).
  rewrite list_elem_of_filter, Hne. unfold rowMatches, valueMatches.
  rewrite Is_true_true. tauto.
Qed.

Lemma Search_range_mode_witness :
  searchInts 2
    [Sched 0; Sched 1; Sched 0; Cancel CancellationError; Sched 1; Sched 0]
    None [5; 3; 9; 3; 7] 3 7 []
  = Some {| rows := [0; 1]; err := Some CancellationError;
            reads := [0; 2; 1] |} ∧
  (0 ∈ [0; 1] ↔
   negb (5 <? 3) && ((5 <? 7) || (5 =? 7)) = true).
Proof.
  split; [by vm_compute|].
  apply (Search_range_mode Z.eqb resolveLimits 2
           (intSeries [5; 3; 9; 3; 7]) 3 7 [] 0 4
           [Sched 0; Sched 1; Sched 0; Cancel CancellationError;
            Sched 1; Sched 0]
           None
           {| rows := [0; 1]; err := Some CancellationError;
              reads := [0; 2; 1] |});
    try (unfold max_int; lia); try by vm_compute.
  set_solver.
Defined.




(** C7: when [Limits] fails, no goroutine is started and no state is shared:
    the call hands back no rows and the error of [Limits], and has fetched
    no value, whatever happens meanwhile. *)
Theorem Search_invalid_range {V error} (cmpEqual : V → V → bool)
    (Limits : Range → Z → error + (Z * Z)) (nCores : Z) (s : Series V)
    (lower upper : V) (r : list Range) (sch : list event)
    (ctx0 : option error) (e : error) :
  Limits (firstRange r) (NRows s) = inl e →
  launch Limits nCores ctx0 s r = inl e ∧
  running cmpEqual Limits nCores sch ctx0 s lower upper r = inl e ∧
  Search cmpEqual Limits nCores sch ctx0 s lower upper r
  = Some {| rows := []; err := Some e; reads := [] |}.
Proof.
  intros Hlim. unfold Search, running, launch. by rewrite Hlim.
Qed.

Lemma Search_invalid_range_witness :
  launch resolveLimits 2 None (intSeries [5; 3; 9; 3; 7]) [rowRange 10 2]
  = inl InvalidRangeError ∧
  running Z.eqb resolveLimits 2 [Sched 0; Sched 1] None
    (intSeries [5; 3; 9; 3; 7]) 3 7 [rowRange 10 2]
  = inl InvalidRangeError ∧
  searchInts 2 [Sched 0; Sched 1] None [5; 3; 9; 3; 7] 3 7 [rowRange 10 2]
  = Some {| rows := []; err := Some InvalidRangeError; reads := [] |}.
Proof.
  apply (Search_invalid_range Z.eqb resolveLimits 2
           (intSeries [5; 3; 9; 3; 7]) 3 7 [rowRange 10 2]
           [Sched 0; Sched 1] None InvalidRangeError).
  by vm_compute.
Defined.

(** C8: only the first range of the variadic parameter is looked at, and no
    range at all stands for the range with both ends open; when [Limits]
    resolves that range to the whole column, a call without error has
    fetched every row of the column and hands back what a sequential pass
    over the whole column finds. *)
Theorem Search_first_range_only {V error} (cmpEqual : V → V → bool)
    (Limits : Range → Z → error + (Z * Z)) (nCores : Z) (s : Series V)
    (lower upper : V) :
  (∀ sch ctx0 r0 rest,
     Search cmpEqual Limits nCores sch ctx0 s lower upper (r0 :: rest)
     = Search cmpEqual Limits nCores sch ctx0 s lower upper [r0]) ∧
  (∀ sch ctx0,
     Search cmpEqual Limits nCores sch ctx0 s lower upper []
     = Search cmpEqual Limits nCores sch ctx0 s lower upper [wholeRange]) ∧
  (∀ sch ctx0 out,
     Limits wholeRange (NRows s) = inr (0, NRows s - 1) →
     0 < NRows s ≤ max_int → 1 ≤ nCores ≤ max_int →
     Search cmpEqual Limits nCores sch ctx0 s lower upper [] = Some out →
     err out = None →
     reads out ≡ₚ seqZ 0 (NRows s) ∧
     rows out
     = sequentialScan s (cmpEqual lower upper) lower upper 0 (NRows s - 1)).
Proof.
  split_and!; [done..|].
  intros sch ctx0 out Hlim Hrows HN Hout Herr.
  destruct (Search_rows_full cmpEqual Limits nCores s lower upper []
              0 (NRows s - 1) Hlim ltac:(lia) ltac:(lia) HN _ _ _ Hout Herr)
    as [-> Hreads].
  unfold sequentialScan.
  by replace (NRows s - 1 - 0 + 1) with (NRows s - 1 + 1) by lia;
    replace (NRows s - 1 + 1) with (NRows s) in * by lia.
Qed.

Lemma Search_first_range_only_witness :
  [0; 1; 2; 3; 4] ≡ₚ seqZ 0 5 ∧
  [0; 1; 3; 4] = sequentialScan (intSeries [5; 3; 9; 3; 7]) (3 =? 7) 3 7 0 4.
Proof.
  refine (proj2 (proj2 (Search_first_range_only Z.eqb resolveLimits 2
            (intSeries [5; 3; 9; 3; 7]) 3 7))
            (sequentially 2 4) None
            {| rows := [0; 1; 3; 4]; err := None;
               reads := [0; 1; 2; 3; 4] |} _ _ _ _ _);
    try (simpl; unfold max_int; lia); by vm_compute.
Defined.

(** C9: calls that nobody cancels, with the same arguments on the same
    column and cores, hand back the same rows in the same order and the same
    error, whatever the schedule of their goroutines; and such a call
    exists. *)
Theorem Search_deterministic {V error} (cmpEqual : V → V → bool)
    (Limits : Range → Z → error + (Z * Z)) (nCores : Z) (s : Series V)
    (lower upper : V) (r : list Range) :
  resolvesToRows Limits r s → 1 ≤ nCores ≤ max_int →
  (∃ sch out,
     noCancel sch = true ∧
     Search cmpEqual Limits nCores sch None s lower upper r = Some out) ∧
  (∀ sch1 sch2 out1 out2,
     noCancel sch1 = true → noCancel sch2 = true →
     Search cmpEqual Limits nCores sch1 None s lower upper r = Some out1 →
     Search cmpEqual Limits nCores sch2 None s lower upper r = Some out2 →
     rows out1 = rows out2 ∧ err out1 = err out2).
Proof.
  intros Hres HN.
  destruct (Limits (firstRange r) (NRows s)) as [e|[start end_]] eqn:Hlim.
  - assert (∀ sch,
              Search cmpEqual Limits nCores sch None s lower upper r
              = Some {| rows := []; err := Some e; reads := [] |}) as Hall.
    { intros sch. unfold Search, running, launch. by rewrite Hlim. }
    split; [eexists [], _; split; [done|apply Hall]|].
    intros sch1 sch2 out1 out2 _ _. rewrite !Hall. by intros [= <-] [= <-].
  - destruct (Hres _ _ Hlim) as [Hord Hint].
    assert (end_ < max_int) as Hint' by lia. split.
    + destruct (Search_returns cmpEqual Limits nCores s lower upper r
                  start end_ Hlim Hord Hint' HN [] None)
        as (sch & Hsch & out & Hout).
      by exists sch, out.
    + intros sch1 sch2 out1 out2 Hsch1 Hsch2 Hout1 Hout2.
      pose proof (Search_noCancel cmpEqual Limits nCores s lower upper r
                    start end_ Hlim Hord Hint' HN _ _ Hsch1 Hout1) as Herr1.
      pose proof (Search_noCancel cmpEqual Limits nCores s lower upper r
                    start end_ Hlim Hord Hint' HN _ _ Hsch2 Hout2) as Herr2.
      destruct (Search_rows_full cmpEqual Limits nCores s lower upper r
                  start end_ Hlim Hord Hint' HN _ _ _ Hout1 Herr1) as [-> _].
      destruct (Search_rows_full cmpEqual Limits nCores s lower upper r
                  start end_ Hlim Hord Hint' HN _ _ _ Hout2 Herr2) as [-> _].
      by rewrite Herr1, Herr2.
Qed.

Lemma Search_deterministic_witness :
  searchInts 2 (sequentially 2 4) None [5; 3; 9; 3; 7] 3 7 []
  = Some {| rows := [0; 1; 3; 4]; err := None; reads := [0; 1; 2; 3; 4] |} ∧
  searchInts 2 [Sched 1; Sched 0; Sched 1; Sched 0; Sched 1; Sched 1; Sched 0]
    None [5; 3; 9; 3; 7] 3 7 []
  = Some {| rows := [0; 1; 3; 4]; err := None; reads := [2; 0; 3; 1; 4] |} ∧
  [0; 1; 3; 4] = [0; 1; 3; 4] ∧ @None searchError = None.
Proof.
  do 2 (split; [by vm_compute|]).
  refine (proj2 (Search_deterministic Z.eqb resolveLimits 2
            (intSeries [5; 3; 9; 3; 7]) 3 7 [] _ _)
            (sequentially 2 4)
            [Sched 1; Sched 0; Sched 1; Sched 0; Sched 1; Sched 1; Sched 0]
            {| rows := [0; 1; 3; 4]; err := None;
               reads := [0; 1; 2; 3; 4] |}
            {| rows := [0; 1; 3; 4]; err := None;
               reads := [2; 0; 3; 1; 4] |} _ _ _ _);
    try (unfold max_int; lia); try by vm_compute.
  intros a b Hlim. vm_compute in Hlim. injection Hlim as <- <-.
  unfold max_int. simpl. lia.
Defined.

(** C10: when the context is already cancelled as the goroutines start on a
    range that resolves, every call ends with the context's error and with
    an empty list of rows, no value of the column having been fetched; and
    the call does end. *)
Theorem Search_cancelled_at_entry {V error} (cmpEqual : V → V → bool)
    (Limits : Range → Z → error + (Z * Z)) (nCores : Z) (s : Series V)
    (lower upper : V) (r : list Range) (start end_ : Z) (e : error) :
  Limits (firstRange r) (NRows s) = inr (start, end_) →
  0 ≤ start ≤ end_ → end_ < max_int → 1 ≤ nCores ≤ max_int →
  (∃ sch,
     is_Some (Search cmpEqual Limits nCores sch (Some e) s lower upper r)) ∧
  (∀ sch out,
     Search cmpEqual Limits nCores sch (Some e) s lower upper r = Some out →
     rows out = [] ∧ length (rows out) = 0%nat ∧
     err out = Some e ∧ reads out = []).
Proof.
  intros Hlim Hord Hint HN. split.
  - destruct (Search_returns cmpEqual Limits nCores s lower upper r
                start end_ Hlim Hord Hint HN [] (Some e)) as (sch & _ & Hout).
    by exists sch.
  - intros sch out Hout.
    destruct (Search_cancelled cmpEqual Limits nCores s lower upper r
                start end_ Hlim Hord Hint HN [] sch (Some e)
                (started nCores (Some e) start end_) e out)
      as (Herr & Hrows & Hreads); try done.
    + unfold running, launch. by rewrite Hlim.
    + by apply started_midScan.
    + assert (rows out = []) as Hnil; [|by rewrite Hnil].
      rewrite Hrows. simpl. unfold spawnAll.
      generalize (seqZ 0 nCores). 
      induction (subRanges nCores start end_) as [|rg rs IH];
        intros [|i l]; simpl; [done..|]. apply IH.
Qed.

Lemma Search_cancelled_at_entry_witness :
  (∃ sch, is_Some (searchInts 2 sch (Some CancellationError)
                     [5; 3; 9; 3; 7] 3 7 [])) ∧
  (∀ sch out,
     searchInts 2 sch (Some CancellationError) [5; 3; 9; 3; 7] 3 7 []
     = Some out →
     rows out = [] ∧ length (rows out) = 0%nat ∧
     err out = Some CancellationError ∧ reads out = []).
Proof.
  apply (Search_cancelled_at_entry Z.eqb resolveLimits 2
           (intSeries [5; 3; 9; 3; 7]) 3 7 [] 0 4 CancellationError);
    try (unfold max_int; lia); by vm_compute.
Defined.

(** * Further properties of [Search] *)

(** ** The sub-ranges *)

(** X1: lines 39-60 compute with Go's [int]; for a range that resolves to rows
    of the column no sum, difference or product wraps around, so each
    sub-range starts at [i * div] and ends at [(i + 1) * div - 1], or at
    [end_] for the last core, [div] being the exact quotient. *)
Theorem subRanges_no_overflow (nCores start end_ : Z) :
  0 ≤ start ≤ end_ → end_ < max_int → 1 ≤ nCores ≤ max_int →
  ∀ (k : nat) (rg : Range),
    subRanges nCores start end_ !! k = Some rg →
    let div := (end_ - start + 1) `div` nCores in
    Z.of_nat k < nCores ∧
    Start rg = Some (Z.of_nat k * div) ∧
    End rg = Some (if bool_decide (Z.of_nat k = nCores - 1) then end_
                   else (Z.of_nat k + 1) * div - 1) ∧
    0 ≤ Z.of_nat k * div ≤ max_int ∧
    -1 ≤ (Z.of_nat k + 1) * div - 1 ≤ max_int.
Proof.
  intros Hord Hint HN k rg. rewrite subRanges_plain by done.
  intros (i & -> & [-> Hk]%lookup_seqZ)%list_lookup_fmap_Some. simpl.
  destruct (chunk_bounds (end_ - start + 1) nCores) as [Hd0 Hd1]; try lia.
  split; [done|]. case_bool_decide; simpl.
  - rewrite bool_decide_false by lia. split_and!; try done; nia.
  - rewrite bool_decide_true by lia. split_and!; try done; nia.
Qed.

Lemma subRanges_no_overflow_witness :
  Z.of_nat 1 < 3 ∧
  Start (rowRange 3 5) = Some (Z.of_nat 1 * 3) ∧
  End (rowRange 3 5)
  = Some (if bool_decide (Z.of_nat 1 = 3 - 1) then 10
          else (Z.of_nat 1 + 1) * 3 - 1) ∧
  0 ≤ Z.of_nat 1 * 3 ≤ max_int ∧
  -1 ≤ (Z.of_nat 1 + 1) * 3 - 1 ≤ max_int.
Proof.
  apply (subRanges_no_overflow 3 2 10 ltac:(lia) ltac:(unfold max_int; lia)
           ltac:(unfold max_int; lia) 1%nat (rowRange 3 5)).
  by vm_compute.
Defined.

(** X2: there is one sub-range per core; the first starts at row 0, each of the
    others starts on the row after the end of the one before it, and the
    last ends at [end_]: the sub-ranges leave no gap and do not overlap. *)
Theorem subRanges_consecutive (nCores start end_ : Z) :
  0 ≤ start ≤ end_ → end_ < max_int → 1 ≤ nCores ≤ max_int →
  length (subRanges nCores start end_) = Z.to_nat nCores ∧
  (∀ rg, head (subRanges nCores start end_) = Some rg →
         deref (Start rg) = 0) ∧
  (∀ k rg rg',
     subRanges nCores start end_ !! k = Some rg →
     subRanges nCores start end_ !! S k = Some rg' →
     deref (Start rg') = deref (End rg) + 1) ∧
  (∀ rg, last (subRanges nCores start end_) = Some rg →
         deref (End rg) = end_).
Proof.
  intros Hord Hint HN. split; [apply subRanges_length|].
  pose proof (subRanges_length nCores start end_) as Hlen.
  rewrite subRanges_plain in * by done.
  split_and!.
  - intros rg. rewrite head_lookup.
    intros (i & -> & [-> _]%lookup_seqZ)%list_lookup_fmap_Some.
    simpl. case_bool_decide; simpl; lia.
  - intros k rg rg'.
    intros (i & -> & [-> Hk]%lookup_seqZ)%list_lookup_fmap_Some.
    intros (j & -> & [-> Hk']%lookup_seqZ)%list_lookup_fmap_Some.
    simpl. rewrite (bool_decide_true (0 + Z.of_nat k ≠ nCores - 1)) by lia.
    case_bool_decide; simpl; lia.
  - intros rg. rewrite last_lookup, Hlen.
    intros (i & -> & [-> _]%lookup_seqZ)%list_lookup_fmap_Some.
    simpl. rewrite bool_decide_false by lia. done.
Qed.

Lemma subRanges_consecutive_witness :
  length (subRanges 3 2 10) = Z.to_nat 3 ∧
  (∀ rg, head (subRanges 3 2 10) = Some rg → deref (Start rg) = 0) ∧
  (∀ k rg rg',
     subRanges 3 2 10 !! k = Some rg →
     subRanges 3 2 10 !! S k = Some rg' →
     deref (Start rg') = deref (End rg) + 1) ∧
  (∀ rg, last (subRanges 3 2 10) = Some rg → deref (End rg) = 10).
Proof.
  apply (subRanges_consecutive 3 2 10); unfold max_int; lia.
Defined.

(** X3: together the sub-ranges hold each of the rows 0 to [end_] once, in
    ascending order, whatever the start of the resolved range; they are the
    rows of the resolved range when it starts at row 0. *)
Theorem subRanges_cover_rows_to_end (nCores start end_ : Z) :
  0 ≤ start ≤ end_ → end_ < max_int → 1 ≤ nCores ≤ max_int →
  concat (rowsOf <$> subRanges nCores start end_) = seqZ 0 (end_ + 1) ∧
  (start = 0 →
   concat (rowsOf <$> subRanges nCores start end_)
   = seqZ start (end_ - start + 1)).
Proof.
  intros Hord Hint HN. rewrite subRanges_rows by done.
  split; [done|]. intros ->. by rewrite Z.sub_0_r.
Qed.

Lemma subRanges_cover_rows_to_end_witness :
  concat (rowsOf <$> subRanges 3 2 10) = seqZ 0 (10 + 1) ∧
  (2 = 0 → concat (rowsOf <$> subRanges 3 2 10) = seqZ 2 (10 - 2 + 1)).
Proof.
  apply (subRanges_cover_rows_to_end 3 2 10); unfold max_int; lia.
Defined.

(** X4: when the resolved range has fewer rows than there are cores, the
    quotient is 0: every sub-range but the last is empty, and the last one
    holds all the rows 0 to [end_], so that a single goroutine does the
    whole scan. *)
Theorem subRanges_fewer_rows_than_cores (nCores start end_ : Z) :
  0 ≤ start ≤ end_ → end_ < max_int → 1 ≤ nCores ≤ max_int →
  end_ - start + 1 < nCores →
  ∀ (k : nat) (rg : Range),
    subRanges nCores start end_ !! k = Some rg →
    (Z.of_nat k < nCores - 1 → rowsOf rg = []) ∧
    (Z.of_nat k = nCores - 1 → rowsOf rg = seqZ 0 (end_ + 1)).
Proof.
  intros Hord Hint HN Hfew k rg. rewrite subRanges_plain by done.
  rewrite Z.div_small by lia.
  intros (i & -> & [-> Hk]%lookup_seqZ)%list_lookup_fmap_Some.
  unfold rowsOf. split; intros Hlast.
  - rewrite bool_decide_true by lia. simpl. apply seqZ_nil. lia.
  - rewrite bool_decide_false by lia. simpl. f_equal; lia.
Qed.

Lemma subRanges_fewer_rows_than_cores_witness :
  (Z.of_nat 3 < 4 - 1 → rowsOf (rowRange 0 4) = []) ∧
  (Z.of_nat 3 = 4 - 1 → rowsOf (rowRange 0 4) = seqZ 0 (4 + 1)).
Proof.
  apply (subRanges_fewer_rows_than_cores 4 3 4 ltac:(lia)
           ltac:(unfold max_int; lia) ltac:(unfold max_int; lia)
           ltac:(lia) 3%nat (rowRange 0 4)).
  by vm_compute.
Defined.

(** ** The error of a call *)

Section Errors.
Context {V error : Type}.
Variable s : Series V.
Variable equalCheck : bool.
Variables lower upper : V.

Local Abbreviation state := (state (error := error)).
Local Abbreviation after := (step s equalCheck lower upper).
Local Abbreviation exec := (run s equalCheck lower upper).
Local Abbreviation state_ok := (state_inv s equalCheck lower upper).

(** The context of a run follows the events alone. *)
Lemma run_ctxErr sch (σ : state) :
  ctxErr (exec sch σ) = ctxAfter (ctxErr σ) sch.
Proof.
  revert σ. induction sch as [|ev sch IH]; intros σ; [done|].
  simpl. rewrite IH. f_equal. destruct ev as [reason|i]; simpl.
  - by destruct (ctxErr σ) eqn:Hctx.
  - destruct (workers σ !! i) as [w|]; [|by destruct (ctxErr σ)].
    destruct (stat w); [|by destruct (ctxErr σ)].
    destruct (scanner_step _ _ _ _ _ _). simpl. by destruct (ctxErr σ).
Qed.

Lemma step_errs_ok ev (σ : state) : errs_ok σ → errs_ok (after ev σ).
Proof.
  intros Hok. destruct ev as [reason|i]; simpl.
  { destruct (ctxErr σ) as [c|] eqn:Hctx; [done|]. intros e He. simpl in *.
    destruct (Hok e He) as [Hc _]. congruence. }
  destruct (workers σ !! i) as [w|] eqn:Hi; [|done].
  destruct (stat w) eqn:Hst; [|done].
  apply lookup_lt_Some in Hi as Hlt.
  unfold scanner_step.
  case_bool_decide; [destruct (ctxErr σ) as [c|] eqn:Hctx|];
    intros e He; simpl in *.
  - split.
    + destruct (groupErr σ) as [g|] eqn:Hg; [|congruence].
      destruct (Hok _ Hg) as [Hc _]. congruence.
    + eexists i, _, _. by rewrite list_lookup_insert_eq.
  - destruct (Hok e He) as [Hc _]. congruence.
  - destruct (Hok e He) as [Hc (k & w0 & e' & Hk & Hw0)]. split; [done|].
    exists k, w0, e'. split; [|done]. rewrite list_lookup_insert_ne; [done|].
    intros ->. congruence.
Qed.

Lemma run_errs_ok sch (σ : state) : errs_ok σ → errs_ok (exec sch σ).
Proof.
  revert σ. induction sch as [|ev sch IH]; intros σ Hok; [done|].
  apply IH, step_errs_ok, Hok.
Qed.

(** *** Goroutines with no row left *)

(** When no goroutine has a row left, the goroutines that still run can only
    return [nil]: none moves, none fetches, and the errgroup keeps what it
    holds. *)
Lemma step_scan_over ev (σ : state) :
  state_ok σ → Forall (λ w, rowsLeft w = 0) (workers σ) →
  fetched (after ev σ) = fetched σ ∧
  groupErr (after ev σ) = groupErr σ ∧
  progress <$> workers (after ev σ) = progress <$> workers σ.
Proof.
  intros (Hw & _ & _) Hover. destruct ev as [reason|i]; simpl.
  { by destruct (ctxErr σ). }
  destruct (workers σ !! i) as [w|] eqn:Hi; [|done].
  destruct (stat w) eqn:Hst; [|done].
  pose proof (Forall_lookup_1 _ _ _ _ Hw Hi) as (Hwf & Hrow & _).
  pose proof (Forall_lookup_1 _ _ _ _ Hover Hi) as Hleft. simpl in Hleft.
  rewrite scanner_step_plain by done.
  rewrite bool_decide_false by lia. simpl.
  rewrite app_nil_r, list_fmap_insert. split_and!; try done.
  apply list_insert_id. by rewrite list_lookup_fmap, Hi.
Qed.

Lemma progress_rowsLeft (ws ws' : list (scanner (error := error))) :
  progress <$> ws' = progress <$> ws →
  Forall (λ w, rowsLeft w = 0) ws → Forall (λ w, rowsLeft w = 0) ws'.
Proof.
  intros Hp Hover. apply Forall_lookup_2. intros k w' Hk.
  assert ((progress <$> ws) !! k = Some (progress w')) as Hk'.
  { by rewrite <- Hp, list_lookup_fmap, Hk. }
  apply list_lookup_fmap_Some in Hk' as (w & [= Hrng Hrow _] & Hw).
  pose proof (Forall_lookup_1 _ _ _ _ Hover Hw) as Hleft. simpl in Hleft.
  unfold rowsLeft in *. by rewrite Hrng, Hrow.
Qed.

Lemma run_scan_over sch (σ : state) :
  state_ok σ → Forall (λ w, rowsLeft w = 0) (workers σ) →
  fetched (exec sch σ) = fetched σ ∧
  groupErr (exec sch σ) = groupErr σ ∧
  progress <$> workers (exec sch σ) = progress <$> workers σ.
Proof.
  revert σ. induction sch as [|ev sch IH]; intros σ Hinv Hover; [done|].
  destruct (step_scan_over ev σ Hinv Hover) as (Hf & Hg & Hp).
  simpl. destruct (IH (after ev σ)) as (-> & -> & ->);
    [by apply step_inv|by eapply progress_rowsLeft|done].
Qed.

(** *** How many rows have been fetched *)

(** Each goroutine has tested at most the rows of its sub-range, and fewer
    when it has a row left. *)
Lemma scanned_length (ctx : option error) (ws : list (scanner (error := error))) :
  Forall (scanner_inv s equalCheck lower upper ctx) ws →
  (length (concat (scannedBy <$> ws))
   ≤ length (concat (rowsOf ∘ rng <$> ws)))%nat ∧
  (Exists (λ w, 0 < rowsLeft w) ws →
   (length (concat (scannedBy <$> ws))
    < length (concat (rowsOf ∘ rng <$> ws)))%nat).
Proof.
  induction 1 as [|w ws ([? ?] & ? & _) _ [IHle IHlt]].
  { split; [done|]. by intros ?%Exists_nil. }
  rewrite !fmap_cons. cbn [concat compose].
  assert ((length (scannedBy w) ≤ length (rowsOf (rng w)))%nat ∧
          (0 < rowsLeft w →
           (length (scannedBy w) < length (rowsOf (rng w)))%nat))
    as [Hle Hlt].
  { unfold scannedBy, rowsOf, rowsLeft. rewrite !length_seqZ. lia. }
  rewrite !length_app. split; [lia|].
  intros [Hleft|Hex]%Exists_cons.
  - specialize (Hlt Hleft). lia.
  - specialize (IHlt Hex). lia.
Qed.

(** *** Finishing within a number of turns *)

Lemma run_finishes_within (σ : state) :
  state_ok σ →
  ∃ sch, noCancel sch = true ∧ (length sch ≤ turnsLeft σ)%nat ∧
         finished (exec sch σ) = true.
Proof.
  remember (turnsLeft σ) as n eqn:Hn. revert σ Hn.
  induction (lt_wf n) as [n _ IH]. intros σ -> Hinv.
  destruct (finished σ) eqn:Hfin.
  { exists []. split_and!; [done|simpl; lia|done]. }
  apply forallb_false_lookup in Hfin as (i & w & Hi & Hw).
  assert (stat w = Running) as Hst.
  { unfold hasReturned in Hw. by destruct (stat w). }
  pose proof (sched_turnsLeft s equalCheck lower upper i σ w Hinv Hi Hst)
    as Hless.
  destruct (IH _ Hless _ eq_refl) as (sch & Hsch & Hlen & Hend);
    [by apply step_inv|].
  exists (Sched i :: sch). split_and!; [done|simpl; lia|done].
Qed.

Lemma spawnAll_turnsLeft nCores (rs : list Range) (ctx0 : option error) :
  length rs = Z.to_nat nCores →
  turnsLeft {| ctxErr := ctx0; workers := spawnAll nCores rs;
               mapRows := ∅; groupErr := None; fetched := [] |}
  = (length rs + length (concat (rowsOf <$> rs)))%nat.
Proof.
  unfold turnsLeft, spawnAll. simpl. rewrite <- (length_seqZ 0 nCores).
  generalize (seqZ 0 nCores). induction rs as [|rg rs IH]; intros [|i l] Hlen;
    simplify_eq/=; [done|].
  rewrite IH by done. rewrite length_app. unfold turnsOf, rowsLeft, rowsOf.
  simpl. rewrite length_seqZ. lia.
Qed.

End Errors.

(** ** Calls on a range that resolves *)

Section MoreCalls.
Context {V error : Type}.
Variable cmpEqual : V → V → bool.
Variable Limits : Range → Z → error + (Z * Z).
Variable nCores : Z.
Variable s : Series V.
Variables lower upper : V.
Variable r : list Range.
Variables start end_ : Z.

Hypothesis resolves : Limits (firstRange r) (NRows s) = inr (start, end_).
Hypothesis in_order : 0 ≤ start ≤ end_.
Hypothesis in_int : end_ < max_int.
Hypothesis cores : 1 ≤ nCores ≤ max_int.

Local Abbreviation equalCheck := (cmpEqual lower upper).
Local Abbreviation exec := (run s equalCheck lower upper).
Local Abbreviation call := (Search cmpEqual Limits nCores).
Local Abbreviation reached := (running cmpEqual Limits nCores).
Local Abbreviation begun := (started (error := error) nCores).
Local Abbreviation matching :=
  (λ row : Z, Is_true (rowMatches s equalCheck lower upper row)).

Lemma reached_inv sch ctx0 σ :
  reached sch ctx0 s lower upper r = inr σ →
  σ = exec sch (begun ctx0 start end_) ∧
  state_inv s equalCheck lower upper σ ∧
  rng <$> workers σ = subRanges nCores start end_ ∧
  fetched σ ≡ₚ concat (scannedBy <$> workers σ).
Proof.
  rewrite (running_started cmpEqual Limits nCores s lower upper r start end_)
    by done.
  intros [= <-]. split_and!; [done| | |].
  - by apply running_inv.
  - by apply (running_ranges cmpEqual).
  - by apply (running_fetched cmpEqual).
Qed.

(** The rows tested so far are picked, in order, from the rows 0 to
    [end_]. *)
Lemma reached_scanned sch ctx0 σ :
  reached sch ctx0 s lower upper r = inr σ →
  concat (scannedBy <$> workers σ) `sublist_of` seqZ 0 (end_ + 1).
Proof.
  intros (_ & (Hw & _ & _) & Hrng & _)%reached_inv.
  rewrite <- (subRanges_rows nCores start end_), <- Hrng by done.
  rewrite <- list_fmap_compose.
  apply sublist_concat, Forall2_fmap, Forall_Forall2_diag.
  eapply Forall_impl; [exact Hw|]. intros w ([? ?] & ? & _). simpl.
  unfold scannedBy, rowsOf.
  set (a := deref (Start (rng w))). set (b := deref (End (rng w))).
  replace (b + 1 - a) with ((row w - a) + (b + 1 - row w)) by lia.
  rewrite seqZ_app by (unfold a, b; lia). by apply sublist_inserts_r.
Qed.

(** X5: at every moment of every run, each row that has been handed to
    [s.Value] is one of the rows 0 to [end_]; no goroutine reads below row 0
    or beyond the end of the resolved range. *)
Theorem Search_fetches_inside_range sch ctx0 σ row :
  running cmpEqual Limits nCores sch ctx0 s lower upper r = inr σ →
  row ∈ fetched σ → 0 ≤ row ≤ end_.
Proof.
  intros Hσ Hrow. pose proof Hσ as (_ & _ & _ & Hlog)%reached_inv.
  rewrite Hlog in Hrow.
  eapply sublist_subseteq in Hrow; [|by eapply reached_scanned].
  apply elem_of_seqZ in Hrow. lia.
Qed.

(** X6: at every moment of every run, no row has been handed to [s.Value]
    twice: the goroutines never test the same row. *)
Theorem Search_fetches_once sch ctx0 σ :
  running cmpEqual Limits nCores sch ctx0 s lower upper r = inr σ → NoDup (fetched σ).
Proof.
  intros Hσ. pose proof Hσ as (_ & _ & _ & Hlog)%reached_inv.
  rewrite Hlog. eapply sublist_NoDup; [|by eapply reached_scanned].
  apply NoDup_seqZ.
Qed.

(** X7: a call that ends without error hands back what a sequential pass
    over the rows 0 to [end_] finds, whatever the number of cores and the
    schedule; this is the pass over the resolved range when it starts at
    row 0. *)
Theorem Search_error_free_is_sequential sch ctx0 out :
  Search cmpEqual Limits nCores sch ctx0 s lower upper r = Some out → err out = None →
  rows out = sequentialScan s (cmpEqual lower upper) lower upper 0 end_ ∧
  (start = 0 →
   rows out = sequentialScan s (cmpEqual lower upper) lower upper start end_).
Proof.
  intros Hout Herr.
  pose proof (Search_rows_from_zero cmpEqual Limits nCores s lower upper r
                start end_ resolves in_order in_int cores _ _ _ Hout Herr)
    as Hrows.
  split; [done|]. by intros ->.
Qed.

(** X8: however a call ends, the rows it hands back are, sub-range after
    sub-range, the first matching rows of each sub-range: each goroutine
    contributes a prefix of the matching rows of its own sub-range. *)
Theorem Search_rows_by_sub_range sch ctx0 out :
  Search cmpEqual Limits nCores sch ctx0 s lower upper r = Some out →
  ∃ parts,
    rows out = concat parts ∧
    Forall2 prefix parts
      ((λ rg, filter matching (rowsOf rg)) <$> subRanges nCores start end_).
Proof.
  intros [Hfin ->]%(Search_Some cmpEqual Limits nCores s lower upper r
                      start end_ resolves in_order in_int cores).
  eexists. split; [done|]. simpl.
  pose proof (running_inv cmpEqual nCores s lower upper start end_
                in_order in_int cores sch ctx0) as (Hw & _ & _).
  rewrite <- (running_ranges cmpEqual nCores s lower upper start end_
                in_order in_int cores sch ctx0).
  rewrite <- list_fmap_compose.
  apply Forall2_fmap, Forall_Forall2_diag.
  eapply Forall_impl; [exact Hw|]. intros w Hwi. simpl.
  rewrite (found_prefix _ _ _ _ _ _ Hwi). by eexists.
Qed.

(** X9: once every goroutine has tested the last row of its sub-range, a
    cancellation comes too late: the goroutines that have not yet returned
    return [nil], and the call ends without error, with the rows of the
    complete scan and without fetching anything more. *)
Theorem Search_late_cancellation sch1 sch2 ctx0 σ1 out :
  running cmpEqual Limits nCores sch1 ctx0 s lower upper r = inr σ1 →
  Forall (λ w, rowsLeft w = 0) (workers σ1) →
  Search cmpEqual Limits nCores (sch1 ++ sch2) ctx0 s lower upper r
  = Some out →
  err out = None ∧
  rows out = sequentialScan s (cmpEqual lower upper) lower upper 0 end_ ∧
  reads out = fetched σ1.
Proof.
  intros Hσ1 Hover Hout.
  pose proof Hσ1 as (-> & Hinv1 & _ & _)%reached_inv.
  assert (err out = None) as Herr.
  { apply (Search_Some cmpEqual Limits nCores s lower upper r start end_
             resolves in_order in_int cores) in Hout as [Hfin ->].
    simpl. rewrite run_app in *.
    destruct (run_scan_over s equalCheck lower upper sch2 _ Hinv1 Hover)
      as (_ & _ & Hprog).
    pose proof (progress_rowsLeft _ _ Hprog Hover) as Hover2.
    pose proof (run_inv s equalCheck lower upper sch2 _ Hinv1)
      as (Hw2 & _ & _).
    assert (errs_ok (exec sch2 (exec sch1 (begun ctx0 start end_))))
      as Hok.
    { rewrite <- run_app. by apply run_errs_ok. }
    destruct (groupErr (exec sch2 _)) as [e|] eqn:Hg; [|done].
    destruct (Hok e Hg) as (_ & k & w & e' & Hk & Hst).
    pose proof (Forall_lookup_1 _ _ _ _ Hw2 Hk) as (_ & _ & _ & Hs).
    pose proof (Forall_lookup_1 _ _ _ _ Hover2 Hk) as Hleft.
    simpl in Hleft. rewrite Hst in Hs. lia. }
  split_and!; [done| |].
  - by eapply Search_rows_from_zero.
  - apply (Search_Some cmpEqual Limits nCores s lower upper r start end_
             resolves in_order in_int cores) in Hout as [_ ->].
    simpl. rewrite run_app.
    by destruct (run_scan_over s equalCheck lower upper sch2 _ Hinv1 Hover)
      as (-> & _ & _).
Qed.

(** X10: when [Limits] succeeds, an error handed back by the call is the
    error of the context: the one it had on entry, or else the reason of the
    first cancellation during the run. *)
Theorem Search_error_is_first_cancellation sch ctx0 out e :
  Search cmpEqual Limits nCores sch ctx0 s lower upper r = Some out →
  err out = Some e → ctxAfter ctx0 sch = Some e.
Proof.
  unfold Search, running, launch. rewrite resolves.
  destruct (finished _); [|done]. intros [= <-]. simpl. intros Hg.
  assert (errs_ok (exec sch (begun ctx0 start end_))) as Hok.
  { by apply run_errs_ok. }
  destruct (Hok e Hg) as [Hctx _].
  by rewrite run_ctxErr in Hctx.
Qed.

(** X11: a call ends without error exactly when it has fetched every row
    from 0 to [end_]; a call that hands back an error has left at least one
    of these rows untested. *)
Theorem Search_nil_error_iff_all_fetched sch ctx0 out :
  Search cmpEqual Limits nCores sch ctx0 s lower upper r = Some out →
  (err out = None ↔ reads out ≡ₚ seqZ 0 (end_ + 1)).
Proof.
  intros Hout. split.
  { intros Herr. by eapply Search_rows_full. }
  intros Hall.
  apply (Search_Some cmpEqual Limits nCores s lower upper r start end_
           resolves in_order in_int cores) in Hout as [Hfin ->].
  simpl in *.
  pose proof (running_inv cmpEqual nCores s lower upper start end_
                in_order in_int cores sch ctx0) as (Hw & _ & _).
  assert (errs_ok (exec sch (begun ctx0 start end_))) as Hok.
  { by apply run_errs_ok. }
  destruct (groupErr (exec sch _)) as [e|] eqn:Hg; [|done]. exfalso.
  destruct (Hok e Hg) as (_ & k & w & e' & Hk & Hst).
  pose proof (Forall_lookup_1 _ _ _ _ Hw Hk) as (_ & _ & _ & Hs).
  rewrite Hst in Hs. destruct Hs as [_ Hleft].
  destruct (scanned_length s equalCheck lower upper _ _ Hw) as [_ Hlt].
  apply Permutation_length in Hall.
  rewrite (running_fetched cmpEqual nCores s lower upper start end_
             in_order in_int cores sch ctx0) in Hall.
  rewrite <- (subRanges_rows nCores start end_) in Hall by done.
  rewrite <- (running_ranges cmpEqual nCores s lower upper start end_
                in_order in_int cores sch ctx0) in Hall.
  rewrite <- list_fmap_compose in Hall.
  assert (Exists (λ w, 0 < rowsLeft w) (workers (exec sch (begun ctx0 start end_))))
    as Hex.
  { apply Exists_exists. exists w. split; [|done].
    by eapply list_elem_of_lookup_2. }
  specialize (Hlt Hex). lia.
Qed.

(** X13: in range mode, when every value that is less than or equal to
    [upper] is less than [lower] (the bounds are the wrong way round), no row
    matches and the call hands back no rows. *)
Theorem Search_inverted_bounds sch ctx0 out :
  cmpEqual lower upper = false →
  (∀ v, IsLessThanFunc s v upper || IsEqualFunc s v upper = true →
        IsLessThanFunc s v lower = true) →
  Search cmpEqual Limits nCores sch ctx0 s lower upper r = Some out → rows out = [].
Proof.
  intros Hne Hinv Hout.
  pose proof (Search_rows_sublist cmpEqual Limits nCores s lower upper r
                start end_ resolves in_order in_int cores _ _ _ Hout)
    as Hsub.
  assert (∀ l : list Z,
            filter (λ row, rowMatches s equalCheck lower upper row) l = [])
    as Hnone.
  { induction l as [|row l IH]; [done|].
    rewrite filter_cons_False; [done|]. rewrite Hne.
    unfold rowMatches, valueMatches. intros Hm%Is_true_true.
    apply andb_true_iff in Hm as [Hlow Hup].
    by rewrite (Hinv _ Hup) in Hlow. }
  rewrite Hnone in Hsub. by apply sublist_nil_r.
Qed.

(** X15: calls that end without error hand back the same rows whatever the
    number of cores they run on. *)
Theorem Search_same_rows_on_any_cores nCores' sch sch' ctx0 ctx0' out out' :
  1 ≤ nCores' ≤ max_int →
  Search cmpEqual Limits nCores sch ctx0 s lower upper r = Some out →
  Search cmpEqual Limits nCores' sch' ctx0' s lower upper r = Some out' →
  err out = None → err out' = None →
  rows out = rows out'.
Proof.
  intros Hcores' Hout Hout' Herr Herr'.
  destruct (Search_rows_full cmpEqual Limits nCores s lower upper r
              start end_ resolves in_order in_int cores _ _ _ Hout Herr)
    as [-> _].
  by destruct (Search_rows_full cmpEqual Limits nCores' s lower upper r
                 start end_ resolves in_order in_int Hcores' _ _ _
                 Hout' Herr') as [-> _].
Qed.

(** X14: the call can return after at most one turn per row from 0 to
    [end_] and one more turn per core, with the context cancelled or not. *)
Theorem Search_returns_within ctx0 :
  ∃ sch,
    noCancel sch = true ∧
    (length sch ≤ Z.to_nat nCores + Z.to_nat (end_ + 1))%nat ∧
    is_Some (Search cmpEqual Limits nCores sch ctx0 s lower upper r).
Proof.
  destruct (run_finishes_within s equalCheck lower upper
              (begun ctx0 start end_)) as (sch & Hsch & Hlen & Hfin).
  { by apply started_inv. }
  exists sch. split_and!; [done| |].
  - unfold started in Hlen.
    rewrite spawnAll_turnsLeft in Hlen by apply subRanges_length.
    by rewrite subRanges_length, subRanges_rows, length_seqZ in Hlen.
  - eexists. by apply (Search_Some cmpEqual Limits nCores s lower upper r
                         start end_ resolves in_order in_int cores).
Qed.

End MoreCalls.

Lemma Search_fetches_inside_range_witness : 0 ≤ 2 ≤ 4.
Proof.
  apply (Search_fetches_inside_range Z.eqb resolveLimits 2
           (intSeries [5; 3; 9; 3; 7]) 3 7 [] 0 4
           ltac:(by vm_compute) ltac:(lia) ltac:(unfold max_int; lia)
           ltac:(unfold max_int; lia)
           [Sched 0; Sched 1; Sched 0; Cancel CancellationError] None
           {| ctxErr := Some CancellationError;
              workers :=
                [ {| idx := 0; rng := rowRange 0 1; row := 2;
                     rowsFound := [0; 1]; stat := Running |};
                  {| idx := 1; rng := rowRange 2 4; row := 3;
                     rowsFound := []; stat := Running |} ];
              mapRows := ∅; groupErr := None; fetched := [0; 2; 1] |}
           2).
  - by vm_compute.
  - set_solver.
Defined.

Lemma Search_fetches_once_witness : NoDup [0; 2; 1].
Proof.
  apply (Search_fetches_once Z.eqb resolveLimits 2
           (intSeries [5; 3; 9; 3; 7]) 3 7 [] 0 4
           ltac:(by vm_compute) ltac:(lia) ltac:(unfold max_int; lia)
           ltac:(unfold max_int; lia)
           [Sched 0; Sched 1; Sched 0; Cancel CancellationError] None
           {| ctxErr := Some CancellationError;
              workers :=
                [ {| idx := 0; rng := rowRange 0 1; row := 2;
                     rowsFound := [0; 1]; stat := Running |};
                  {| idx := 1; rng := rowRange 2 4; row := 3;
                     rowsFound := []; stat := Running |} ];
              mapRows := ∅; groupErr := None; fetched := [0; 2; 1] |}).
  by vm_compute.
Defined.

Lemma Search_error_free_is_sequential_witness :
  [0; 1; 3; 4] = sequentialScan (intSeries [5; 3; 9; 3; 7]) (3 =? 7) 3 7 0 4 ∧
  (2 = 0 →
   [0; 1; 3; 4] = sequentialScan (intSeries [5; 3; 9; 3; 7]) (3 =? 7) 3 7 2 4).
Proof.
  apply (Search_error_free_is_sequential Z.eqb resolveLimits 2
           (intSeries [5; 3; 9; 3; 7]) 3 7 [rowRange 2 4] 2 4
           ltac:(by vm_compute) ltac:(lia) ltac:(unfold max_int; lia)
           ltac:(unfold max_int; lia)
           (sequentially 2 6) None
           {| rows := [0; 1; 3; 4]; err := None;
              reads := [0; 1; 2; 3; 4] |});
    by vm_compute.
Defined.

Lemma Search_rows_by_sub_range_witness :
  ∃ parts,
    [0; 1] = concat parts ∧
    Forall2 prefix parts
      ((λ rg, filter (λ row, rowMatches (intSeries [5; 3; 9; 3; 7])
                               (3 =? 7) 3 7 row) (rowsOf rg))
         <$> subRanges 2 0 4).
Proof.
  apply (Search_rows_by_sub_range Z.eqb resolveLimits 2
           (intSeries [5; 3; 9; 3; 7]) 3 7 [] 0 4
           ltac:(by vm_compute) ltac:(lia) ltac:(unfold max_int; lia)
           ltac:(unfold max_int; lia)
           [Sched 0; Sched 1; Sched 0; Cancel CancellationError;
            Sched 1; Sched 0]
           None
           {| rows := [0; 1]; err := Some CancellationError;
              reads := [0; 2; 1] |}).
  by vm_compute.
Defined.

Lemma Search_late_cancellation_witness :
  @None searchError = None ∧
  [0; 1; 3; 4] = sequentialScan (intSeries [5; 3; 9; 3; 7]) (3 =? 7) 3 7 0 4 ∧
  [0; 2; 1; 3; 4] = [0; 2; 1; 3; 4].
Proof.
  apply (Search_late_cancellation Z.eqb resolveLimits 2
           (intSeries [5; 3; 9; 3; 7]) 3 7 [] 0 4
           ltac:(by vm_compute) ltac:(lia) ltac:(unfold max_int; lia)
           ltac:(unfold max_int; lia)
           [Sched 0; Sched 1; Sched 0; Sched 1; Sched 1]
           [Cancel CancellationError; Sched 1; Sched 0]
           None
           {| ctxErr := None;
              workers :=
                [ {| idx := 0; rng := rowRange 0 1; row := 2;
                     rowsFound := [0; 1]; stat := Running |};
                  {| idx := 1; rng := rowRange 2 4; row := 5;
                     rowsFound := [3; 4]; stat := Running |} ];
              mapRows := ∅; groupErr := None;
              fetched := [0; 2; 1; 3; 4] |}
           {| rows := [0; 1; 3; 4]; err := None;
              reads := [0; 2; 1; 3; 4] |}).
  - by vm_compute.
  - repeat constructor.
  - by vm_compute.
Defined.

Lemma Search_error_is_first_cancellation_witness :
  ctxAfter None
    [Sched 0; Cancel CancellationError; Sched 1; Cancel InvalidRangeError;
     Sched 0]
  = Some CancellationError.
Proof.
  apply (Search_error_is_first_cancellation Z.eqb resolveLimits 2
           (intSeries [5; 3; 9; 3; 7]) 3 7 [] 0 4 ltac:(by vm_compute)
           [Sched 0; Cancel CancellationError; Sched 1;
            Cancel InvalidRangeError; Sched 0]
           None
           {| rows := [0]; err := Some CancellationError; reads := [0] |});
    by vm_compute.
Defined.

Lemma Search_nil_error_iff_all_fetched_witness :
  Some CancellationError = None ↔ [0; 2; 1] ≡ₚ seqZ 0 (4 + 1).
Proof.
  apply (Search_nil_error_iff_all_fetched Z.eqb resolveLimits 2
           (intSeries [5; 3; 9; 3; 7]) 3 7 [] 0 4
           ltac:(by vm_compute) ltac:(lia) ltac:(unfold max_int; lia)
           ltac:(unfold max_int; lia)
           [Sched 0; Sched 1; Sched 0; Cancel CancellationError;
            Sched 1; Sched 0]
           None
           {| rows := [0; 1]; err := Some CancellationError;
              reads := [0; 2; 1] |}).
  by vm_compute.
Defined.

Lemma Search_inverted_bounds_witness : @nil Z = [].
Proof.
  apply (Search_inverted_bounds Z.eqb resolveLimits 2
           (intSeries [5; 3; 9; 3; 7]) 7 3 [] 0 4
           ltac:(by vm_compute) ltac:(lia) ltac:(unfold max_int; lia)
           ltac:(unfold max_int; lia)
           (sequentially 2 4) None
           {| rows := []; err := None; reads := [0; 1; 2; 3; 4] |}).
  - by vm_compute.
  - intros v. simpl. lia.
  - by vm_compute.
Defined.

Lemma Search_returns_within_witness :
  ∃ sch,
    noCancel sch = true ∧
    (length sch ≤ Z.to_nat 2 + Z.to_nat (4 + 1))%nat ∧
    is_Some (searchInts 2 sch None [5; 3; 9; 3; 7] 3 7 []).
Proof.
  apply (Search_returns_within Z.eqb resolveLimits 2
           (intSeries [5; 3; 9; 3; 7]) 3 7 [] 0 4
           ltac:(by vm_compute) ltac:(lia) ltac:(unfold max_int; lia)
           ltac:(unfold max_int; lia) None).
Defined.

Lemma Search_same_rows_on_any_cores_witness :
  [0; 1; 3; 4] = [0; 1; 3; 4].
Proof.
  apply (Search_same_rows_on_any_cores Z.eqb resolveLimits 2
           (intSeries [5; 3; 9; 3; 7]) 3 7 [] 0 4
           ltac:(by vm_compute) ltac:(lia) ltac:(unfold max_int; lia)
           ltac:(unfold max_int; lia)
           7 (sequentially 2 4) (sequentially 7 6) None None
           {| rows := [0; 1; 3; 4]; err := None;
              reads := [0; 1; 2; 3; 4] |}
           {| rows := [0; 1; 3; 4]; err := None;
              reads := [0; 1; 2; 3; 4] |});
    first [by vm_compute | unfold max_int; lia].
Defined.

(** ** The two tests of a value *)

Section Modes.
Context {V error : Type}.
Variable s : Series V.
Variables lower upper : V.

Hypothesis less_excludes_equal :
  ∀ v, IsLessThanFunc s v lower = true → IsEqualFunc s v lower = false.
Hypothesis same_less : ∀ v, IsLessThanFunc s v upper = IsLessThanFunc s v lower.
Hypothesis same_equal : ∀ v, IsEqualFunc s v upper = IsEqualFunc s v lower.

Lemma valueMatches_either_mode b b' v :
  valueMatches s b lower upper v = valueMatches s b' lower upper v.
Proof.
  assert (valueMatches s false lower upper v = valueMatches s true lower upper v)
    as Hsame.
  { unfold valueMatches. rewrite same_less, same_equal.
    destruct (IsLessThanFunc s v lower) eqn:Hlt; [|done].
    by rewrite less_excludes_equal. }
  destruct b, b'; done.
Qed.

Lemma run_either_mode b b' sch (σ : state (error := error)) :
  run s b lower upper sch σ = run s b' lower upper sch σ.
Proof.
  revert σ. induction sch as [|ev sch IH]; intros σ; [done|].
  simpl. rewrite IH. f_equal. destruct ev as [reason|i]; [done|]. simpl.
  destruct (workers σ !! i) as [w|]; [|done].
  destruct (stat w); [|done].
  unfold scanner_step. by rewrite (valueMatches_either_mode b b').
Qed.

(** X12: when the comparators of the column do not tell [upper] from [lower]
    and no value is both less than and equal to [lower], equality mode and
    range mode accept the same values, so the call hands back the same
    outcome whatever [cmp.Equal] answers. *)
Theorem Search_either_mode (cmpEqual cmpEqual' : V → V → bool)
    (Limits : Range → Z → error + (Z * Z)) (nCores : Z)
    (sch : list event) (ctx0 : option error) (r : list Range) :
  Search cmpEqual Limits nCores sch ctx0 s lower upper r
  = Search cmpEqual' Limits nCores sch ctx0 s lower upper r.
Proof.
  unfold Search, running. destruct (launch _ _ _ _ _) as [e|σ0]; [done|].
  by rewrite (run_either_mode (cmpEqual lower upper) (cmpEqual' lower upper)).
Qed.

End Modes.

Lemma Search_either_mode_witness :
  searchInts 2 (sequentially 2 4) None [5; 3; 9; 3; 7] 3 3 []
  = Search (λ _ _, false) resolveLimits 2 (sequentially 2 4) None
      (intSeries [5; 3; 9; 3; 7]) 3 3 [].
Proof.
  apply (Search_either_mode (intSeries [5; 3; 9; 3; 7]) 3 3);
    intros v; simpl; lia.
Defined.
